(** * Activepieces: piece discovery and the flow engine's test fixtures

    A shallow embedding of
    - the piece loader ([validateSupportedRelease], [validatePremiumPiece],
      [validateMetadata], [byDisplayNameIgnoreCase], [loadPieceFromFolder],
      [findAllPieces]), and
    - the engine test helpers ([generateMockEngineConstants],
      [buildSimpleLoopAction], [buildActionWithOneCondition],
      [buildCodeAction], [buildPieceAction]),
    together with a model of the flow interpreter those helpers feed.

    Part I holds the definitions, Part II the theorems. *)

From Stdlib Require Import List String Ascii ZArith NArith Bool Lia.
From Stdlib Require Import Sorted Permutation OrdersEx.
Import ListNotations.
Local Open Scope string_scope.
Local Open Scope Z_scope.
Set Warnings "-register-all".

(** * Part I: definitions *)

(** ** JavaScript primitives used by the sources *)

Module Js.

(** A completion record: the code either returns or throws. *)
Inductive Completion (A : Type) : Type :=
| Normal (value : A)
| Throw (message : string).
Arguments Normal {A} value.
Arguments Throw {A} message.

Definition bind {A B} (c : Completion A) (k : A -> Completion B) : Completion B :=
  match c with
  | Normal a => k a
  | Throw m => Throw m
  end.

Definition throws {A} (c : Completion A) : Prop := exists m, c = Throw m.

(** [a ?? d] *)
Definition coalesce {A} (a : option A) (d : A) : A :=
  match a with
  | Some x => x
  | None => d
  end.

(** Truthiness of a value of type [string | null | undefined]. *)
Definition truthy (v : option string) : bool :=
  match v with
  | Some s => negb (s =? EmptyString)%string
  | None => false
  end.

(** [s.includes(search)] *)
Fixpoint includes (s search : string) : bool :=
  if String.prefix search s then true
  else match s with
       | EmptyString => false
       | String _ rest => includes rest search
       end.

(** [xs.includes(x)] on an array of strings. *)
Definition arrayIncludes (xs : list string) (x : string) : bool :=
  existsb (String.eqb x) xs.

(** [pieces.filter((p) => p !== null)] *)
Fixpoint filterNotNull {A} (l : list (option A)) : list A :=
  match l with
  | [] => []
  | Some x :: l' => x :: filterNotNull l'
  | None :: l' => filterNotNull l'
  end.

(** [Array.prototype.sort(compareFn)]: a stable sort, where
    [compareFn a b > 0] means that [a] goes after [b].  Each element is
    inserted, back to front, before the first element it does not go
    after. *)
Fixpoint insert {A} (compareFn : A -> A -> Z) (x : A) (l : list A) : list A :=
  match l with
  | [] => [x]
  | y :: l' =>
      if compareFn x y <=? 0 then x :: y :: l' else y :: insert compareFn x l'
  end.

Definition sort {A} (compareFn : A -> A -> Z) (l : list A) : list A :=
  fold_right (insert compareFn) [] l.

(** The double quote character, for messages that quote a field name. *)
Definition dq : string := String (ascii_of_nat 34) EmptyString.

End Js.

Import Js.

Notation "x <- c ;; k" := (Js.bind c (fun x => k))
  (at level 61, c at next level, right associativity).
Notation "c ;;; k" := (Js.bind c (fun _ => k))
  (at level 61, right associativity).

(** ** The piece loader *)

Module PieceLoader.

(** [PieceCategory] is a string enum of [@activepieces/shared]. *)
Definition PieceCategory : Type := string.

(** The enum member [PieceCategory.PREMIUM]. *)
Class SharedEnums : Type := {
  PREMIUM : PieceCategory
}.

(** The exports of the [semver] package the loader calls.  [valid] returns
    the normalised version or null; [gt] and [lt] throw on a string that is
    not a version. *)
Class SemverPackage : Type := {
  semver_valid : string -> option string;
  semver_gt : string -> string -> Completion bool;
  semver_lt : string -> string -> Completion bool
}.

(** [String.prototype.toUpperCase] and
    [String.prototype.localeCompare(that, locales)]. *)
Class StringLocale : Type := {
  toUpperCase : string -> string;
  localeCompare : string -> string -> string -> Z
}.

Record PackageJson : Type := {
  pkg_name : string;
  pkg_version : string;
  pkg_keywords : list string
}.

(** [Omit<PieceMetadata, 'name' | 'version'>], what [piece.metadata()]
    returns.  [Rest] stands for the fields the loader only carries along
    (logo, description, actions, triggers, auth, authors, ...). *)
Record PieceMetadataBase (Rest : Type) : Type := {
  base_displayName : string;
  base_categories : option (list PieceCategory);
  base_directoryPath : option string;
  base_minimumSupportedRelease : option string;
  base_maximumSupportedRelease : option string;
  base_rest : Rest
}.
Arguments base_displayName {Rest} _.
Arguments base_categories {Rest} _.
Arguments base_directoryPath {Rest} _.
Arguments base_minimumSupportedRelease {Rest} _.
Arguments base_maximumSupportedRelease {Rest} _.
Arguments base_rest {Rest} _.

Record PieceMetadata (Rest : Type) : Type := {
  name : string;
  displayName : string;
  version : string;
  categories : option (list PieceCategory);
  directoryPath : option string;
  minimumSupportedRelease : option string;
  maximumSupportedRelease : option string;
  rest : Rest
}.
Arguments name {Rest} _.
Arguments displayName {Rest} _.
Arguments version {Rest} _.
Arguments categories {Rest} _.
Arguments directoryPath {Rest} _.
Arguments minimumSupportedRelease {Rest} _.
Arguments maximumSupportedRelease {Rest} _.
Arguments rest {Rest} _.

(** The loader's local type [Piece]. *)
Record Piece (Rest : Type) : Type := {
  piece_name : string;
  piece_displayName : string;
  piece_version : string;
  piece_minimumSupportedRelease : option string;
  piece_maximumSupportedRelease : option string;
  piece_metadata : PieceMetadataBase Rest
}.
Arguments piece_name {Rest} _.
Arguments piece_displayName {Rest} _.
Arguments piece_version {Rest} _.
Arguments piece_minimumSupportedRelease {Rest} _.
Arguments piece_maximumSupportedRelease {Rest} _.
Arguments piece_metadata {Rest} _.

(** The file system and the module loader as the loader sees them:
    [findAllDistPaths()], [readPackageJson(path)], and
    [import(join(folderPath, 'src', 'index'))] followed by
    [extractPieceFromModule({ module, pieceName, pieceVersion })]. *)
Class PieceHost (Rest : Type) : Type := {
  findAllDistPaths : Completion (list string);
  readPackageJson : string -> Completion PackageJson;
  importPiece : string -> string -> string -> Completion (Piece Rest)
}.

Section Loader.

Context {Rest : Type}.
Context `{SharedEnums} `{SemverPackage} `{StringLocale} `{PieceHost Rest}.

Definition validateSupportedRelease (minRelease maxRelease : option string)
  : Completion unit :=
  if match minRelease with
     | Some m => negb (truthy (semver_valid m))
     | None => false
     end
  then Throw ("[validateSupportedRelease] " ++ dq ++ "minimumSupportedRelease"
              ++ dq ++ " should be a valid semver version")
  else
  if match maxRelease with
     | Some m => negb (truthy (semver_valid m))
     | None => false
     end
  then Throw ("[validateSupportedRelease] " ++ dq ++ "maximumSupportedRelease"
              ++ dq ++ " should be a valid semver version")
  else
  tooLarge <- match minRelease, maxRelease with
              | Some mn, Some mx => semver_gt mn mx
              | _, _ => Normal false
              end ;;
  if (tooLarge : bool)
  then Throw ("[validateSupportedRelease] " ++ dq ++ "minimumSupportedRelease"
              ++ dq ++ " should be less than " ++ dq
              ++ "maximumSupportedRelease" ++ dq)
  else Normal tt.

Definition validatePremiumPiece (piece : PieceMetadata Rest) : Completion unit :=
  let categories := coalesce (categories piece) [] in
  if match directoryPath piece with
     | Some d => includes d "/ee/"
     | None => false
     end && negb (arrayIncludes categories PREMIUM)
  then Throw "[validatePremiumPiece] Premium pieces must be in the 'premium' category"
  else
  tooOld <- (if arrayIncludes categories PREMIUM
             then if negb (truthy (minimumSupportedRelease piece))
                  then Normal true
                  else semver_lt
                         (coalesce (minimumSupportedRelease piece) EmptyString)
                         "0.27.1"
             else Normal false) ;;
  if (tooOld : bool)
  then Throw "[validatePremiumPiece] Premium pieces must have a minimum supported release of 0.27.1 or higher"
  else Normal tt.

(** The two premium rules, as stated: a piece whose directory path contains
    [/ee/] is in the premium category; a piece in the premium category
    declares a minimum supported release that is not below 0.27.1. *)
Definition premiumRules (piece : PieceMetadata Rest) : Prop :=
  (forall d, directoryPath piece = Some d -> includes d "/ee/" = true ->
             In PREMIUM (coalesce (categories piece) [])) /\
  (In PREMIUM (coalesce (categories piece) []) ->
   exists m, minimumSupportedRelease piece = Some m /\
             m <> EmptyString /\
             semver_lt m "0.27.1" = Normal false).

Definition validateMetadata (pieceMetadata : PieceMetadata Rest) : Completion unit :=
  validateSupportedRelease
    (minimumSupportedRelease pieceMetadata)
    (maximumSupportedRelease pieceMetadata) ;;;
  validatePremiumPiece pieceMetadata.

Definition byDisplayNameIgnoreCase (a b : PieceMetadata Rest) : Z :=
  let aName := toUpperCase (displayName a) in
  let bName := toUpperCase (displayName b) in
  localeCompare aName bName "en".

(** The object [loadPieceFromFolder] assembles before it validates it:
    the spread of [piece.metadata()], then the assignments. *)
Definition assembleMetadata (folderPath : string) (packageJson : PackageJson)
    (piece : Piece Rest) : PieceMetadata Rest :=
  let m := piece_metadata piece in
  {| name := pkg_name packageJson;
     displayName := base_displayName m;
     version := pkg_version packageJson;
     categories := base_categories m;
     directoryPath := Some folderPath;
     minimumSupportedRelease :=
       Some (coalesce (piece_minimumSupportedRelease piece) "0.0.0");
     maximumSupportedRelease :=
       Some (coalesce (piece_maximumSupportedRelease piece) "99999.99999.9999");
     rest := base_rest m |}.

(** The body of the [try] block of [loadPieceFromFolder]. *)
Definition loadPieceFromFolder_try (folderPath : string)
  : Completion (PieceMetadata Rest) :=
  packageJson <- readPackageJson folderPath ;;
  piece <- importPiece folderPath (pkg_name packageJson) (pkg_version packageJson) ;;
  let metadata := assembleMetadata folderPath packageJson piece in
  validateMetadata metadata ;;;
  Normal metadata.

(** [null] is [None]: the [catch] logs and falls through to [return null]. *)
Definition loadPieceFromFolder (folderPath : string) : option (PieceMetadata Rest) :=
  match loadPieceFromFolder_try folderPath with
  | Normal metadata => Some metadata
  | Throw _ => None
  end.

Definition findAllPieces : Completion (list (PieceMetadata Rest)) :=
  paths <- findAllDistPaths ;;
  let pieces := map loadPieceFromFolder paths in
  Normal (sort byDisplayNameIgnoreCase (filterNotNull pieces)).

Definition findPiece (pieceName : string)
  : Completion (option (PieceMetadata Rest)) :=
  pieces <- findAllPieces ;;
  Normal (find (fun p => (name p =? pieceName)%string) pieces).

End Loader.

End PieceLoader.

(** ** The flow engine *)

Module Engine.

(** JSON values: step inputs and outputs ([unknown] in the sources). *)
Inductive JsonValue : Type :=
| JNull
| JBool (b : bool)
| JNumber (n : Z)
| JString (s : string)
| JArray (elements : list JsonValue)
| JObject (fields : list (string * JsonValue)).

(** *** Enums of [@activepieces/shared] *)

(** Modelled from the spec: the declaration of [FlowVersionState] is not
    among the sources; the spec names a draft and a published state, the
    test helper uses [DRAFT]. *)
Inductive FlowVersionState : Type := DRAFT | PUBLISHED.

(** Modelled from the spec: the declaration of [ProgressUpdateType] is not
    among the sources; the spec names the modes none, per-step and
    final-only, the test helper uses [NONE]. *)
Inductive ProgressUpdateType : Type := NONE | PER_STEP | FINAL_ONLY.

Inductive ActionType : Type := CODE | BRANCH | LOOP_ON_ITEMS | PIECE.

(** Only the members the test helper names. *)
Inductive PackageType : Type := REGISTRY.
Inductive PieceType : Type := OFFICIAL.

(** *** Engine constants *)

(** The retry constants the test helper passes; they are taken to be
    integers. *)
Record RetryConstants : Type := {
  maxAttempts : Z;
  retryExponential : Z;
  retryInterval : Z
}.

(** The argument of [new VariableService({ ... })]. *)
Record VariableService : Type := {
  vs_projectId : string;
  vs_engineToken : string;
  vs_apiUrl : string
}.

(** Modelled from the spec: the class [EngineConstants] is not among the
    sources.  Its fields are those of the spec's data model, in the order
    in which [generateMockEngineConstants] passes them to the
    constructor. *)
Record EngineConstants : Type := {
  flowId : string;
  flowVersionId : string;
  flowVersionState : FlowVersionState;
  flowRunId : string;
  publicUrl : string;
  internalApiUrl : string;
  retryConstants : RetryConstants;
  engineToken : string;
  projectId : string;
  variableService : VariableService;
  testSingleStepMode : bool;
  progressUpdateType : ProgressUpdateType;
  serverHandlerId : option string;
  httpRequestId : option string;
  resumePayload : option JsonValue
}.

(** [Partial<EngineConstants>]: every field may be missing. *)
Record PartialEngineConstants : Type := {
  p_flowId : option string;
  p_flowVersionId : option string;
  p_flowVersionState : option FlowVersionState;
  p_flowRunId : option string;
  p_publicUrl : option string;
  p_internalApiUrl : option string;
  p_retryConstants : option RetryConstants;
  p_engineToken : option string;
  p_projectId : option string;
  p_variableService : option VariableService;
  p_testSingleStepMode : option bool;
  p_progressUpdateType : option ProgressUpdateType;
  p_serverHandlerId : option (option string);
  p_httpRequestId : option (option string);
  p_resumePayload : option JsonValue
}.

(** [params?.field]: undefined when [params] is. *)
Definition opt {A B} (params : option A) (field : A -> option B) : option B :=
  match params with
  | Some p => field p
  | None => None
  end.

(** [params?.serverHandlerId ?? null]: a missing and a null identifier
    both give null. *)
Definition orNull {A} (v : option (option A)) : option A :=
  match v with
  | Some x => x
  | None => None
  end.

Definition generateMockEngineConstants (params : option PartialEngineConstants)
  : EngineConstants :=
  Build_EngineConstants
    (coalesce (opt params p_flowId) "flowId")
    (coalesce (opt params p_flowVersionId) "flowVersionId")
    (coalesce (opt params p_flowVersionState) DRAFT)
    (coalesce (opt params p_flowRunId) "flowRunId")
    (coalesce (opt params p_publicUrl) "http://127.0.0.1:3000")
    (coalesce (opt params p_internalApiUrl) "http://127.0.0.1:3000")
    (coalesce (opt params p_retryConstants)
       {| maxAttempts := 2; retryExponential := 1; retryInterval := 1 |})
    (coalesce (opt params p_engineToken) "engineToken")
    (coalesce (opt params p_projectId) "projectId")
    (coalesce (opt params p_variableService)
       {| vs_projectId := "projectId";
          vs_engineToken := "engineToken";
          vs_apiUrl := "http://127.0.0.1:3000" |})
    (coalesce (opt params p_testSingleStepMode) false)
    (coalesce (opt params p_progressUpdateType) NONE)
    (orNull (opt params p_serverHandlerId))
    (orNull (opt params p_httpRequestId))
    (opt params p_resumePayload).

(** *** Actions *)

(** Modelled from the spec: [ActionErrorHandlingOptions] is not among the
    sources; the spec gives two independent flags. *)
Record ActionErrorHandlingOptions : Type := {
  continueOnFailure : bool;
  retryOnFailure : bool
}.

Record SourceCode : Type := {
  packageJson : string;
  code : string
}.

Record CodeActionSettings : Type := {
  code_input : list (string * JsonValue);
  code_sourceCode : SourceCode;
  code_errorHandlingOptions : option ActionErrorHandlingOptions
}.

(** Modelled from the spec: [BranchCondition] is not among the sources; a
    condition compares two operands, resolved from templates, with an
    operator of an enumerated set. *)
Record BranchCondition : Type := {
  firstValue : string;
  secondValue : string;
  operator : string
}.

Record BranchActionSettings : Type := {
  branch_inputUiInfo : list (string * JsonValue);
  conditions : list (list BranchCondition)
}.

Record LoopOnItemsActionSettings : Type := {
  items : string;
  loop_inputUiInfo : list (string * JsonValue)
}.

Record PieceActionSettings : Type := {
  piece_input : list (string * JsonValue);
  pieceName : string;
  packageType : PackageType;
  pieceVersion : string;
  pieceType : PieceType;
  actionName : string;
  piece_inputUiInfo : list (string * JsonValue);
  piece_errorHandlingOptions : option ActionErrorHandlingOptions
}.

(** Modelled from the spec: the types [Action], [CodeAction],
    [BranchAction], [LoopOnItemsAction] and [PieceAction] are not among the
    sources.  The common fields and the settings are those the builders of
    the test helper write; the non-branching kinds carry [nextAction],
    [BRANCH] carries its two sub-chains, [LOOP_ON_ITEMS] its body.  A
    successor is a sub-term of its action, so a chain is owned by its head. *)
Inductive Action : Type :=
| CodeAction (name displayName : string) (valid : bool)
    (settings : CodeActionSettings) (nextAction : option Action)
| BranchAction (name displayName : string) (valid : bool)
    (settings : BranchActionSettings)
    (onSuccessAction onFailureAction : option Action)
| LoopOnItemsAction (name displayName : string) (valid : bool)
    (settings : LoopOnItemsActionSettings)
    (firstLoopAction nextAction : option Action)
| PieceAction (name displayName : string) (valid : bool)
    (settings : PieceActionSettings) (nextAction : option Action).

Definition type (a : Action) : ActionType :=
  match a with
  | CodeAction _ _ _ _ _ => CODE
  | BranchAction _ _ _ _ _ _ => BRANCH
  | LoopOnItemsAction _ _ _ _ _ _ => LOOP_ON_ITEMS
  | PieceAction _ _ _ _ _ => PIECE
  end.

Definition name (a : Action) : string :=
  match a with
  | CodeAction n _ _ _ _ | BranchAction n _ _ _ _ _
  | LoopOnItemsAction n _ _ _ _ _ | PieceAction n _ _ _ _ => n
  end.

Definition displayName (a : Action) : string :=
  match a with
  | CodeAction _ d _ _ _ | BranchAction _ d _ _ _ _
  | LoopOnItemsAction _ d _ _ _ _ | PieceAction _ d _ _ _ => d
  end.

Definition valid (a : Action) : bool :=
  match a with
  | CodeAction _ _ v _ _ | BranchAction _ _ v _ _ _
  | LoopOnItemsAction _ _ v _ _ _ | PieceAction _ _ v _ _ => v
  end.

Definition nextAction (a : Action) : option Action :=
  match a with
  | CodeAction _ _ _ _ next | LoopOnItemsAction _ _ _ _ _ next
  | PieceAction _ _ _ _ next => next
  | BranchAction _ _ _ _ _ _ => None
  end.

Definition onSuccessAction (a : Action) : option Action :=
  match a with
  | BranchAction _ _ _ _ s _ => s
  | _ => None
  end.

Definition onFailureAction (a : Action) : option Action :=
  match a with
  | BranchAction _ _ _ _ _ f => f
  | _ => None
  end.

Definition firstLoopAction (a : Action) : option Action :=
  match a with
  | LoopOnItemsAction _ _ _ _ first _ => first
  | _ => None
  end.

Definition branchConditions (a : Action) : list (list BranchCondition) :=
  match a with
  | BranchAction _ _ _ s _ _ => conditions s
  | _ => []
  end.

Definition loopItems (a : Action) : option string :=
  match a with
  | LoopOnItemsAction _ _ _ s _ _ => Some (items s)
  | _ => None
  end.

Definition errorHandlingOptions (a : Action) : option ActionErrorHandlingOptions :=
  match a with
  | CodeAction _ _ _ s _ => code_errorHandlingOptions s
  | PieceAction _ _ _ s _ => piece_errorHandlingOptions s
  | _ => None
  end.

(** The number of actions of a flow, sub-chains included. *)
Fixpoint size (a : Action) : nat :=
  let sizeOpt (o : option Action) : nat :=
    match o with
    | Some b => size b
    | None => 0%nat
    end in
  match a with
  | CodeAction _ _ _ _ next => S (sizeOpt next)
  | BranchAction _ _ _ _ s f => S (sizeOpt s + sizeOpt f)
  | LoopOnItemsAction _ _ _ _ first next => S (sizeOpt first + sizeOpt next)
  | PieceAction _ _ _ _ next => S (sizeOpt next)
  end.

(** The actions after [a] on its chain, following [nextAction]. *)
Fixpoint successors (a : Action) : list Action :=
  let follow (o : option Action) : list Action :=
    match o with
    | Some b => b :: successors b
    | None => []
    end in
  match a with
  | CodeAction _ _ _ _ next => follow next
  | LoopOnItemsAction _ _ _ _ _ next => follow next
  | PieceAction _ _ _ _ next => follow next
  | BranchAction _ _ _ _ _ _ => []
  end.

(** *** The builders of the test helper *)

Definition buildSimpleLoopAction (name loopItems : string)
    (firstLoopAction : option Action) : Action :=
  LoopOnItemsAction name "Loop" true
    {| items := loopItems; loop_inputUiInfo := [] |}
    firstLoopAction None.

Definition buildActionWithOneCondition (condition : BranchCondition)
    (onSuccessAction onFailureAction : option Action) : Action :=
  BranchAction "branch" "Your Branch Name" true
    {| branch_inputUiInfo := []; conditions := [[condition]] |}
    onSuccessAction onFailureAction.

Definition buildCodeAction (name : string) (input : list (string * JsonValue))
    (errorHandlingOptions : option ActionErrorHandlingOptions)
    (nextAction : option Action) : Action :=
  CodeAction name "Your Action Name" true
    {| code_input := input;
       code_sourceCode := {| packageJson := EmptyString; code := EmptyString |};
       code_errorHandlingOptions := errorHandlingOptions |}
    nextAction.

Definition buildPieceAction (name : string) (input : list (string * JsonValue))
    (pieceName actionName : string) (nextAction : option Action)
    (errorHandlingOptions : option ActionErrorHandlingOptions) : Action :=
  PieceAction name "Your Action Name" true
    {| piece_input := input;
       pieceName := pieceName;
       packageType := REGISTRY;
       pieceVersion := "1.0.0";
       pieceType := OFFICIAL;
       actionName := actionName;
       piece_inputUiInfo := [];
       piece_errorHandlingOptions := errorHandlingOptions |}
    nextAction.

(** *** The variable resolver *)

(** Modelled from the spec: the error kinds of the engine. *)
Inductive ErrorKind : Type :=
| InvalidAction
| ResolutionError
| ExecutorError
| Cancelled
| Timeout.

(** Modelled from the spec: the result of a resolution or of an executor's
    preparation, a value or an error of some kind with its detail. *)
Inductive Resolved (A : Type) : Type :=
| Ok (value : A)
| Err (kind : ErrorKind) (detail : string).
Arguments Ok {A} value.
Arguments Err {A} kind detail.

Definition andThen {A B} (r : Resolved A) (k : A -> Resolved B) : Resolved B :=
  match r with
  | Ok a => k a
  | Err kind detail => Err kind detail
  end.

(** Modelled from the spec: what a reference token may address: the output
    recorded for an action, by name and dotted path; the current loop item
    and index; the flow and run identifiers. *)
Inductive Reference : Type :=
| StepRef (stepName : string) (path : list string)
| LoopItemRef (path : list string)
| LoopIndexRef
| FlowIdRef
| RunIdRef.

(** Modelled from the spec: a scanned template, text and reference tokens. *)
Inductive Segment : Type :=
| Literal (text : string)
| Token (reference : Reference).

(** Modelled from the spec: what the capability provider answers, an
    output, a pause with a resume key, or an error. *)
Inductive ProviderResult : Type :=
| ProviderOutput (output : JsonValue)
| ProviderPaused (resumeKey : string)
| ProviderError (detail : string).

(** Modelled from the spec: the collaborators the spec leaves open.
    [tokenize] scans a template for reference tokens, [stringify] prints a
    value substituted inside text, [applyOperator] evaluates a comparison
    operator of the enumerated set, [runCode] is the script sandbox of the
    code executor and [invoke] the capability provider
    ([invoke pieceName actionName resolvedInput authToken baseUrls]).  The
    last argument of [runCode] and [invoke] is the number of the attempt,
    from 1: the outside world may answer each attempt differently. *)
Class Host : Type := {
  tokenize : string -> list Segment;
  stringify : JsonValue -> string;
  applyOperator : string -> JsonValue -> JsonValue -> bool;
  runCode : SourceCode -> JsonValue -> nat -> string + JsonValue;
  invoke : string -> string -> JsonValue -> string -> string * string -> nat
           -> ProviderResult
}.

(** Modelled from the spec: what the Run Context holds for an action, its
    output and whether it errored. *)
Inductive StepStatus : Type := STEP_SUCCEEDED | STEP_FAILED.

Record StepOutput : Type := {
  status : StepStatus;
  output : JsonValue
}.

(** Modelled from the spec: the Run Context, the outputs recorded so far in
    execution order, and the item and index of the enclosing loop
    iteration, if any. *)
Record RunContext : Type := {
  steps : list (string * StepOutput);
  loopScope : option (JsonValue * nat)
}.

Definition emptyContext : RunContext := {| steps := []; loopScope := None |}.

Fixpoint assoc {V} (key : string) (l : list (string * V)) : option V :=
  match l with
  | [] => None
  | (k, v) :: l' => if (k =? key)%string then Some v else assoc key l'
  end.

(** Modelled from the spec: recording is append-only, and the entry found
    for a name is the first one written. *)
Definition record (ctx : RunContext) (name : string) (o : StepOutput) : RunContext :=
  {| steps := steps ctx ++ [(name, o)]; loopScope := loopScope ctx |}.

(** Modelled from the spec: dotted-path access into a structured output. *)
Fixpoint getPath (v : JsonValue) (path : list string) : option JsonValue :=
  match path with
  | [] => Some v
  | key :: path' =>
      match v with
      | JObject fields =>
          match assoc key fields with
          | Some v' => getPath v' path'
          | None => None
          end
      | _ => None
      end
  end.

(** Resolve the elements of a list from left to right, stopping at the
    first error. *)
Definition mapResolved {A B} (f : A -> Resolved B) : list A -> Resolved (list B) :=
  fix each (l : list A) : Resolved (list B) :=
    match l with
    | [] => Ok []
    | x :: l' =>
        andThen (f x) (fun y =>
        andThen (each l') (fun ys => Ok (y :: ys)))
    end.

(** Some element of a list satisfies [P]. *)
Definition some {A} (P : A -> Prop) : list A -> Prop :=
  fix any (l : list A) : Prop :=
    match l with
    | [] => False
    | x :: l' => P x \/ any l'
    end.

Section Interpreter.

Context `{Host}.
Variable constants : EngineConstants.

(** Modelled from the spec: section 4.4.  A reference to an action that has
    no entry in the Run Context, or to a path its output does not have, is
    a [ResolutionError]. *)
Definition resolveReference (ctx : RunContext) (r : Reference) : Resolved JsonValue :=
  match r with
  | StepRef stepName path =>
      match assoc stepName (steps ctx) with
      | None => Err ResolutionError stepName
      | Some o =>
          match getPath (output o) path with
          | Some v => Ok v
          | None => Err ResolutionError stepName
          end
      end
  | LoopItemRef path =>
      match loopScope ctx with
      | Some (item, _) =>
          match getPath item path with
          | Some v => Ok v
          | None => Err ResolutionError "item"
          end
      | None => Err ResolutionError "item"
      end
  | LoopIndexRef =>
      match loopScope ctx with
      | Some (_, index) => Ok (JNumber (Z.of_nat index))
      | None => Err ResolutionError "index"
      end
  | FlowIdRef => Ok (JString (flowId constants))
  | RunIdRef => Ok (JString (flowRunId constants))
  end.

(** Modelled from the spec: text stands for itself, a token for what it
    refers to. *)
Definition resolveSegment (ctx : RunContext) (s : Segment) : Resolved JsonValue :=
  match s with
  | Literal text => Ok (JString text)
  | Token r => resolveReference ctx r
  end.

Definition resolveSegments (ctx : RunContext) (l : list Segment)
  : Resolved (list JsonValue) :=
  mapResolved (resolveSegment ctx) l.

Definition render (v : JsonValue) : string :=
  match v with
  | JString s => s
  | _ => stringify v
  end.

(** Modelled from the spec: a template that is one token resolves to the
    referenced value, any other one to the text with every token
    replaced. *)
Definition resolveTemplate (ctx : RunContext) (template : string)
  : Resolved JsonValue :=
  andThen (resolveSegments ctx (tokenize template)) (fun vs =>
  match tokenize template, vs with
  | [Token _], [v] => Ok v
  | _, _ => Ok (JString (String.concat EmptyString (map render vs)))
  end).

(** Modelled from the spec: structured input, in which every string is a
    template. *)
Fixpoint resolveValue (ctx : RunContext) (v : JsonValue) : Resolved JsonValue :=
  match v with
  | JString s => resolveTemplate ctx s
  | JArray elements =>
      andThen (mapResolved (resolveValue ctx) elements) (fun r => Ok (JArray r))
  | JObject fields =>
      andThen
        (mapResolved
           (fun field : string * JsonValue =>
              let (key, x) := field in
              andThen (resolveValue ctx x) (fun x' => Ok (key, x')))
           fields)
        (fun r => Ok (JObject r))
  | _ => Ok v
  end.

(** The structured input [v] holds a template with the token [r]. *)
Fixpoint mentions (r : Reference) (v : JsonValue) : Prop :=
  match v with
  | JString s => In (Token r) (tokenize s)
  | JArray elements => some (mentions r) elements
  | JObject fields =>
      some (fun field : string * JsonValue => let (_, x) := field in mentions r x)
        fields
  | _ => False
  end.

(** *** Error-handling policy and retries *)

(** Modelled from the spec: what a run does to the outside world, in
    order: invocations of an executor and waits between attempts. *)
Inductive Event : Type :=
| Invoked (actionName : string) (attempt : nat)
| Waited (delay : Z).

(** Modelled from the spec: what an executor returns. *)
Inductive StepResult : Type :=
| Produced (out : JsonValue)
| Errored (kind : ErrorKind) (detail : string)
| Paused (resumeKey : string).

Definition continueEnabled (o : option ActionErrorHandlingOptions) : bool :=
  match o with
  | Some e => continueOnFailure e
  | None => false
  end.

Definition retryEnabled (o : option ActionErrorHandlingOptions) : bool :=
  match o with
  | Some e => retryOnFailure e
  | None => false
  end.

(** Modelled from the spec: the delay that follows failed attempt number
    [attempt] (from 1), [retryInterval * retryExponential^(attempt-1)]. *)
Definition backoff (rc : RetryConstants) (attempt : nat) : Z :=
  retryInterval rc * retryExponential rc ^ (Z.of_nat attempt - 1).

(** Modelled from the spec: an [ExecutorError] that the retry policy can
    no longer answer with another attempt becomes the [Timeout] of the
    error kinds, "retry policy exhausted", with the detail of the error. *)
Definition exhausted (r : StepResult) : StepResult :=
  match r with
  | Errored ExecutorError detail => Errored Timeout detail
  | _ => r
  end.

(** Modelled from the spec: section 4.2, for an action that retries on
    failure.  [remaining] attempts are allowed, the next one is number
    [attempt].  The executor is invoked; when it fails with an
    [ExecutorError] and attempts remain, the engine waits and invokes it
    again.  With no attempt allowed the executor is not invoked. *)
Fixpoint attemptLoop (rc : RetryConstants) (name : string)
    (once : nat -> StepResult) (remaining attempt : nat)
  : StepResult * list Event :=
  match remaining with
  | O => (Errored Timeout "retry policy exhausted", [])
  | S O => (exhausted (once attempt), [Invoked name attempt])
  | S remaining' =>
      match once attempt with
      | Errored ExecutorError _ =>
          let (r, events) := attemptLoop rc name once remaining' (S attempt) in
          (r, Invoked name attempt :: Waited (backoff rc attempt) :: events)
      | r => (r, [Invoked name attempt])
      end
  end.

(** Modelled from the spec: an action that retries on failure is invoked
    at most [maxAttempts] times; any other action once. *)
Definition runWithRetry (o : option ActionErrorHandlingOptions) (name : string)
    (once : nat -> StepResult) : StepResult * list Event :=
  let rc := retryConstants constants in
  if retryEnabled o
  then attemptLoop rc name once (Z.to_nat (maxAttempts rc)) 1
  else (once 1%nat, [Invoked name 1%nat]).

(** *** Step executors *)

(** Modelled from the spec: one invocation of the script of a code action;
    what it throws is the action's failure. *)
Definition codeAttempt (settings : CodeActionSettings) (input : JsonValue)
    (attempt : nat) : StepResult :=
  match runCode (code_sourceCode settings) input attempt with
  | inr out => Produced out
  | inl thrown => Errored ExecutorError thrown
  end.

(** Modelled from the spec: the code executor, section 4.3. *)
Definition codeExecutor (ctx : RunContext) (name : string)
    (settings : CodeActionSettings) : StepResult * list Event :=
  match resolveValue ctx (JObject (code_input settings)) with
  | Err kind detail => (Errored kind detail, [])
  | Ok input =>
      runWithRetry (code_errorHandlingOptions settings) name
        (codeAttempt settings input)
  end.

(** Modelled from the spec: one invocation of the capability provider for
    a piece action, with the run's token and base URLs. *)
Definition pieceAttempt (settings : PieceActionSettings) (input : JsonValue)
    (attempt : nat) : StepResult :=
  match invoke (pieceName settings) (actionName settings) input
          (engineToken constants)
          (publicUrl constants, internalApiUrl constants) attempt with
  | ProviderOutput out => Produced out
  | ProviderPaused key => Paused key
  | ProviderError detail => Errored ExecutorError detail
  end.

(** Modelled from the spec: the piece executor, section 4.3. *)
Definition pieceExecutor (ctx : RunContext) (name : string)
    (settings : PieceActionSettings) : StepResult * list Event :=
  match resolveValue ctx (JObject (piece_input settings)) with
  | Err kind detail => (Errored kind detail, [])
  | Ok input =>
      runWithRetry (piece_errorHandlingOptions settings) name
        (pieceAttempt settings input)
  end.

(** Modelled from the spec: a condition applies its operator to its two
    resolved operands. *)
Definition evaluateCondition (ctx : RunContext) (c : BranchCondition)
  : Resolved bool :=
  andThen (resolveTemplate ctx (firstValue c)) (fun a =>
  andThen (resolveTemplate ctx (secondValue c)) (fun b =>
  Ok (applyOperator (operator c) a b))).

(** Modelled from the spec: AND within a group, left to right, stopping at
    the first false. *)
Fixpoint evaluateGroup (ctx : RunContext) (group : list BranchCondition)
  : Resolved bool :=
  match group with
  | [] => Ok true
  | c :: group' =>
      andThen (evaluateCondition ctx c) (fun v =>
      if v then evaluateGroup ctx group' else Ok false)
  end.

(** Modelled from the spec: OR across groups. *)
Fixpoint evaluateConditions (ctx : RunContext)
    (groups : list (list BranchCondition)) : Resolved bool :=
  match groups with
  | [] => Ok false
  | g :: groups' =>
      andThen (evaluateGroup ctx g) (fun v =>
      if v then Ok true else evaluateConditions ctx groups')
  end.

(** Modelled from the spec: the items expression resolves to a sequence. *)
Definition resolveItems (ctx : RunContext) (expression : string)
  : Resolved (list JsonValue) :=
  andThen (resolveTemplate ctx expression) (fun v =>
  match v with
  | JArray elements => Ok elements
  | _ => Err ExecutorError expression
  end).

(** *** The interpreter *)

(** Modelled from the spec: the Run Outcome, and the result of a run: the
    outcome, the Run Context reached and the events in order. *)
Inductive RunOutcome : Type :=
| SUCCEEDED
| FAILED (failingAction : string) (kind : ErrorKind) (detail : string)
| PAUSED (currentAction : string) (resumeKey : string).

Record RunResult : Type := {
  outcome : RunOutcome;
  finalContext : RunContext;
  trace : list Event
}.

Record ExecState : Type := {
  context : RunContext;
  events : list Event
}.

Definition finish (st : ExecState) : RunResult :=
  {| outcome := SUCCEEDED; finalContext := context st; trace := events st |}.

(** Modelled from the spec: steps 3 to 6 of the interpreter: record the
    result under the action's name, apply the policy, then stop or go on
    with [continue]. *)
Definition settle (st : ExecState) (name : string)
    (o : option ActionErrorHandlingOptions) (r : StepResult)
    (new : list Event) (continue : ExecState -> RunResult) : RunResult :=
  match r with
  | Produced out =>
      continue {| context := record (context st) name
                               {| status := STEP_SUCCEEDED; output := out |};
                  events := events st ++ new |}
  | Errored kind detail =>
      let ctx := record (context st) name
                   {| status := STEP_FAILED; output := JString detail |} in
      if continueEnabled o
      then continue {| context := ctx; events := events st ++ new |}
      else {| outcome := FAILED name kind detail;
              finalContext := ctx;
              trace := events st ++ new |}
  | Paused key =>
      {| outcome := PAUSED name key;
         finalContext := context st;
         trace := events st ++ new |}
  end.

(** The state in which a branch or loop hands over to a sub-chain or to its
    successor: its own output is recorded. *)
Definition recorded (st : ExecState) (name : string) (out : JsonValue) : ExecState :=
  {| context := record (context st) name
                  {| status := STEP_SUCCEEDED; output := out |};
     events := events st |}.

(** Modelled from the spec: what an iteration recorded, as the iteration's
    output. *)
Definition iterationOutput (parent inner : RunContext) : JsonValue :=
  JObject (map (fun e => (fst e, output (snd e)))
               (skipn (List.length (steps parent)) (steps inner))).

Inductive LoopProgress : Type :=
| LoopDone (iterations : list JsonValue) (events : list Event)
| LoopStopped (iterations : list JsonValue) (stopped : RunResult).

(** Modelled from the spec: the loop executor.  The body runs once per
    item, in a context scoped to the iteration; the first iteration that
    does not succeed ends the loop. *)
Fixpoint iterate (body : ExecState -> RunResult) (ctx : RunContext)
    (items : list JsonValue) (index : nat) (evs : list Event)
    (done : list JsonValue) : LoopProgress :=
  match items with
  | [] => LoopDone done evs
  | item :: items' =>
      let r := body {| context := {| steps := steps ctx;
                                     loopScope := Some (item, index) |};
                       events := evs |} in
      match outcome r with
      | SUCCEEDED =>
          iterate body ctx items' (S index) (trace r)
            (done ++ [iterationOutput ctx (finalContext r)])
      | _ => LoopStopped done r
      end
  end.

Definition loopOutput (iterations : list JsonValue) : JsonValue :=
  JObject [("iterations", JArray iterations)].

(** Modelled from the spec: step 1, an invalid action fails the run
    without being executed. *)
Definition invalid (st : ExecState) (name : string) : RunResult :=
  {| outcome := FAILED name InvalidAction "invalid action";
     finalContext := context st;
     trace := events st |}.

(** Modelled from the spec: section 4.1, the walk of the action tree.
    Cancellation, the single-step debug mode, progress reports and
    resumption are left out. *)
Fixpoint executeAction (st : ExecState) (action : Action) {struct action}
  : RunResult :=
  let chain (o : option Action) (st' : ExecState) : RunResult :=
    match o with
    | Some next => executeAction st' next
    | None => finish st'
    end in
  match action with
  | CodeAction name _ valid settings nextAction =>
      if negb valid then invalid st name else
      let (r, new) := codeExecutor (context st) name settings in
      settle st name (code_errorHandlingOptions settings) r new (chain nextAction)
  | PieceAction name _ valid settings nextAction =>
      if negb valid then invalid st name else
      let (r, new) := pieceExecutor (context st) name settings in
      settle st name (piece_errorHandlingOptions settings) r new (chain nextAction)
  | BranchAction name _ valid settings onSuccessAction onFailureAction =>
      if negb valid then invalid st name else
      match evaluateConditions (context st) (conditions settings) with
      | Err kind detail => settle st name None (Errored kind detail) [] finish
      | Ok v =>
          settle st name None (Produced (JObject [("condition", JBool v)])) []
            (chain (if v then onSuccessAction else onFailureAction))
      end
  | LoopOnItemsAction name _ valid settings firstLoopAction nextAction =>
      if negb valid then invalid st name else
      match resolveItems (context st) (items settings) with
      | Err kind detail =>
          settle st name None (Errored kind detail) [] (chain nextAction)
      | Ok elements =>
          match iterate (chain firstLoopAction) (context st) elements 0
                  (events st) [] with
          | LoopDone iterations evs =>
              settle {| context := context st; events := evs |} name None
                (Produced (loopOutput iterations)) [] (chain nextAction)
          | LoopStopped iterations r =>
              {| outcome := outcome r;
                 finalContext :=
                   match outcome r with
                   | PAUSED _ _ => context st
                   | _ => record (context st) name
                            {| status := STEP_FAILED;
                               output := loopOutput iterations |}
                   end;
                 trace := trace r |}
          end
      end
  end.

(** The chain that starts at an optional action. *)
Definition executeChain (o : option Action) (st : ExecState) : RunResult :=
  match o with
  | Some next => executeAction st next
  | None => finish st
  end.

(** The state in which the iteration of a loop over [item], the one
    numbered [index], starts: the context scoped to the iteration, and no
    event yet. *)
Definition iterationState (ctx : RunContext) (item : JsonValue) (index : nat)
  : ExecState :=
  {| context := {| steps := steps ctx; loopScope := Some (item, index) |};
     events := [] |}.

(** The result [r] of a run that started after the events [before]. *)
Definition after (before : list Event) (r : RunResult) : RunResult :=
  {| outcome := outcome r;
     finalContext := finalContext r;
     trace := (before ++ trace r)%list |}.

(** A continuation that only adds to the events it starts after. *)
Definition framed (k : ExecState -> RunResult) : Prop :=
  forall st, k st = after (events st) (k {| context := context st; events := [] |}).

(** The spec's words for the loop executor, to compare [iterate] with:
    the [firstLoopAction] chain executed for each item, in order, in the
    context of the iteration; one run per item. *)
Fixpoint oncePerItem (body : option Action) (ctx : RunContext)
    (items : list JsonValue) (index : nat) : list RunResult :=
  match items with
  | [] => []
  | item :: items' =>
      executeChain body (iterationState ctx item index)
      :: oncePerItem body ctx items' (S index)
  end.

(** Modelled from the spec: the entry point
    [executeFlow(rootAction, initialContext, constants)]. *)
Definition executeFlow (rootAction : Action) (initialContext : RunContext)
  : RunResult :=
  executeAction {| context := initialContext; events := [] |} rootAction.

(** *** Reading a run *)

(** The invocations of a trace, in order: action name and attempt. *)
Fixpoint attemptsOf (evs : list Event) : list (string * nat) :=
  match evs with
  | [] => []
  | Invoked name attempt :: evs' => (name, attempt) :: attemptsOf evs'
  | Waited _ :: evs' => attemptsOf evs'
  end.

(** The waits of a trace, in order. *)
Fixpoint delaysOf (evs : list Event) : list Z :=
  match evs with
  | [] => []
  | Invoked _ _ :: evs' => delaysOf evs'
  | Waited delay :: evs' => delay :: delaysOf evs'
  end.

(** What the attempts at a code or piece action give in [ctx], by their
    number, when its input resolves. *)
Definition attemptOf (ctx : RunContext) (a : Action)
  : option (nat -> StepResult) :=
  match a with
  | CodeAction _ _ _ settings _ =>
      match resolveValue ctx (JObject (code_input settings)) with
      | Ok input => Some (codeAttempt settings input)
      | Err _ _ => None
      end
  | PieceAction _ _ _ settings _ =>
      match resolveValue ctx (JObject (piece_input settings)) with
      | Ok input => Some (pieceAttempt settings input)
      | Err _ _ => None
      end
  | _ => None
  end.

(** Attempt number [attempt] fails: the executor's operation failed. *)
Definition failsAt (once : nat -> StepResult) (attempt : nat) : Prop :=
  exists detail, once attempt = Errored ExecutorError detail.

(** The input of a code or piece action resolves in [ctx] and each of its
    attempts 1 to [count] fails. *)
Definition failsEvery (ctx : RunContext) (a : Action) (count : nat) : Prop :=
  exists once,
    attemptOf ctx a = Some once /\
    forall attempt, (1 <= attempt <= count)%nat -> failsAt once attempt.

(** No action of a chain of code actions fails: each is valid and, run in
    the context its predecessors leave, produces an output. *)
Fixpoint runsClean (ctx : RunContext) (chain : list Action) : Prop :=
  match chain with
  | [] => True
  | CodeAction name _ valid settings _ :: chain' =>
      valid = true /\
      exists out evs,
        codeExecutor ctx name settings = (Produced out, evs) /\
        runsClean
          (record ctx name {| status := STEP_SUCCEEDED; output := out |}) chain'
  | _ :: _ => False
  end.

End Interpreter.

End Engine.

(** ** Actions as the objects the builders return *)

Module ActionObjects.

(** A reference to an action object: its place among the objects made so
    far. *)
Definition Ref : Type := nat.

(** The [settings] the four builders write. *)
Inductive Settings : Type :=
| CodeSettings (settings : Engine.CodeActionSettings)
| BranchSettings (settings : Engine.BranchActionSettings)
| LoopSettings (settings : Engine.LoopOnItemsActionSettings)
| PieceSettings (settings : Engine.PieceActionSettings).

(** An action object as the builders' object literals write it.  The four
    properties that refer to other actions hold a reference or are
    [undefined]; a property a builder does not write reads as
    [undefined]. *)
Record ActionObject : Type := {
  name : string;
  displayName : string;
  type : Engine.ActionType;
  settings : Settings;
  valid : bool;
  nextAction : option Ref;
  onSuccessAction : option Ref;
  onFailureAction : option Ref;
  firstLoopAction : option Ref
}.

(** The objects made so far, in the order in which they were made. *)
Definition Heap : Type := list ActionObject.

(** An object literal makes a new object and leaves the others as they
    are. *)
Definition allocate (o : ActionObject) (heap : Heap) : Ref * Heap :=
  (List.length heap, (heap ++ [o])%list).

Definition buildSimpleLoopAction (name loopItems : string)
    (firstLoopAction : option Ref) : Heap -> Ref * Heap :=
  allocate
    {| name := name;
       displayName := "Loop";
       type := Engine.LOOP_ON_ITEMS;
       settings := LoopSettings {| Engine.items := loopItems;
                                   Engine.loop_inputUiInfo := [] |};
       valid := true;
       nextAction := None;
       onSuccessAction := None;
       onFailureAction := None;
       firstLoopAction := firstLoopAction |}.

Definition buildActionWithOneCondition (condition : Engine.BranchCondition)
    (onSuccessAction onFailureAction : option Ref) : Heap -> Ref * Heap :=
  allocate
    {| name := "branch";
       displayName := "Your Branch Name";
       type := Engine.BRANCH;
       settings := BranchSettings {| Engine.branch_inputUiInfo := [];
                                     Engine.conditions := [[condition]] |};
       valid := true;
       nextAction := None;
       onSuccessAction := onSuccessAction;
       onFailureAction := onFailureAction;
       firstLoopAction := None |}.

Definition buildCodeAction (name : string)
    (input : list (string * Engine.JsonValue))
    (errorHandlingOptions : option Engine.ActionErrorHandlingOptions)
    (nextAction : option Ref) : Heap -> Ref * Heap :=
  allocate
    {| name := name;
       displayName := "Your Action Name";
       type := Engine.CODE;
       settings :=
         CodeSettings
           {| Engine.code_input := input;
              Engine.code_sourceCode :=
                {| Engine.packageJson := EmptyString;
                   Engine.code := EmptyString |};
              Engine.code_errorHandlingOptions := errorHandlingOptions |};
       valid := true;
       nextAction := nextAction;
       onSuccessAction := None;
       onFailureAction := None;
       firstLoopAction := None |}.

Definition buildPieceAction (name : string)
    (input : list (string * Engine.JsonValue))
    (pieceName actionName : string) (nextAction : option Ref)
    (errorHandlingOptions : option Engine.ActionErrorHandlingOptions)
  : Heap -> Ref * Heap :=
  allocate
    {| name := name;
       displayName := "Your Action Name";
       type := Engine.PIECE;
       settings :=
         PieceSettings
           {| Engine.piece_input := input;
              Engine.pieceName := pieceName;
              Engine.packageType := Engine.REGISTRY;
              Engine.pieceVersion := "1.0.0";
              Engine.pieceType := Engine.OFFICIAL;
              Engine.actionName := actionName;
              Engine.piece_inputUiInfo := [];
              Engine.piece_errorHandlingOptions := errorHandlingOptions |};
       valid := true;
       nextAction := nextAction;
       onSuccessAction := None;
       onFailureAction := None;
       firstLoopAction := None |}.

(** *** Describing the objects *)

Definition held (o : option Ref) : list Ref :=
  match o with
  | Some r => [r]
  | None => []
  end.

(** The actions an object refers to, property by property. *)
Definition references (o : ActionObject) : list Ref :=
  (held (nextAction o) ++ held (onSuccessAction o)
   ++ held (onFailureAction o) ++ held (firstLoopAction o))%list.

(** The action at [parent] refers to the one at [child]: as its successor
    or as the head of one of its sub-chains. *)
Definition Owns (heap : Heap) (parent child : Ref) : Prop :=
  exists o, nth_error heap parent = Some o /\ In child (references o).

(** The action at [a] has the one at [b] as its successor. *)
Definition Next (heap : Heap) (a b : Ref) : Prop :=
  exists o, nth_error heap a = Some o /\ nextAction o = Some b.

(** [child] is reached from [parent] through one reference or more. *)
Inductive Reaches (heap : Heap) : Ref -> Ref -> Prop :=
| Reaches_one (parent child : Ref) :
    Owns heap parent child -> Reaches heap parent child
| Reaches_more (parent middle child : Ref) :
    Owns heap parent middle -> Reaches heap middle child ->
    Reaches heap parent child.

(** The spec's words: no cycles, no action is reached from itself; no
    sharing, no action is referred to by two actions or by two properties
    of one. *)
Definition NoCycles (heap : Heap) : Prop :=
  forall r, ~ Reaches heap r r.

Definition NoSharing (heap : Heap) : Prop :=
  (forall parent parent' child,
      Owns heap parent child -> Owns heap parent' child -> parent = parent') /\
  (forall r o, nth_error heap r = Some o -> NoDup (references o)).

(** *** Putting a flow together *)

(** A reference handed to a builder is one a builder returned before. *)
Definition known (heap : Heap) (o : option Ref) : Prop :=
  match o with
  | Some r => (r < List.length heap)%nat
  | None => True
  end.

(** The same, and no action refers to it yet. *)
Definition unowned (heap : Heap) (o : option Ref) : Prop :=
  match o with
  | Some r => (r < List.length heap)%nat /\ forall parent, ~ Owns heap parent r
  | None => True
  end.

Definition apart (a b : option Ref) : Prop :=
  match a, b with
  | Some x, Some y => x <> y
  | _, _ => True
  end.

(** A call of one of the four builders on [heap], with any arguments a
    program can have at that point. *)
Inductive Call (heap : Heap) : (Heap -> Ref * Heap) -> Prop :=
| Call_loop name loopItems first :
    known heap first ->
    Call heap (buildSimpleLoopAction name loopItems first)
| Call_branch condition success failure :
    known heap success -> known heap failure ->
    Call heap (buildActionWithOneCondition condition success failure)
| Call_code name input options next :
    known heap next ->
    Call heap (buildCodeAction name input options next)
| Call_piece name input pieceName actionName next options :
    known heap next ->
    Call heap (buildPieceAction name input pieceName actionName next options).

(** A call that hands over only actions that no action refers to yet, and
    none of them twice. *)
Inductive CallOnce (heap : Heap) : (Heap -> Ref * Heap) -> Prop :=
| CallOnce_loop name loopItems first :
    unowned heap first ->
    CallOnce heap (buildSimpleLoopAction name loopItems first)
| CallOnce_branch condition success failure :
    unowned heap success -> unowned heap failure -> apart success failure ->
    CallOnce heap (buildActionWithOneCondition condition success failure)
| CallOnce_code name input options next :
    unowned heap next ->
    CallOnce heap (buildCodeAction name input options next)
| CallOnce_piece name input pieceName actionName next options :
    unowned heap next ->
    CallOnce heap (buildPieceAction name input pieceName actionName next options).

(** The objects a program can make with the builders, and those it makes
    when it hands every action over at most once. *)
Inductive Assembled : Heap -> Prop :=
| Assembled_nothing : Assembled []
| Assembled_call heap build :
    Assembled heap -> Call heap build -> Assembled (snd (build heap)).

Inductive AssembledOnce : Heap -> Prop :=
| AssembledOnce_nothing : AssembledOnce []
| AssembledOnce_call heap build :
    AssembledOnce heap -> CallOnce heap build ->
    AssembledOnce (snd (build heap)).

(** *** Two programs *)

(** [buildCodeAction({ name: 'echo_step', nextAction: buildPieceAction({
    name: 'send', nextAction: buildCodeAction({ name: 'echo_step_1' }) }) })]:
    a chain of three actions, the last made first. *)
Definition chainOfThree : Heap :=
  snd (buildCodeAction "echo_step" [] None (Some 1%nat)
    (snd (buildPieceAction "send" [] "nocodb" "create" (Some 0%nat) None
      (snd (buildCodeAction "echo_step_1" [] None None []))))).

(** [const last = buildCodeAction({ name: 'echo_step_1' })], then two
    actions built with [nextAction: last]. *)
Definition sharedTwice : Heap :=
  snd (buildCodeAction "runtime" [] None (Some 0%nat)
    (snd (buildCodeAction "echo_step" [] None (Some 0%nat)
      (snd (buildCodeAction "echo_step_1" [] None None []))))).

End ActionObjects.

(** ** Concrete hosts, for running the definitions *)

Module Fixtures.

Import PieceLoader.

(** A [semver] for plain [MAJOR.MINOR.PATCH] versions: no prerelease or
    build tags, no [v] prefix. *)
Definition digitValue (c : ascii) : option N :=
  let n := N_of_ascii c in
  if ((48 <=? n) && (n <=? 57))%N then Some (n - 48)%N else None.

Fixpoint digitsValue (s : string) (acc : N) : option N :=
  match s with
  | EmptyString => Some acc
  | String c s' =>
      match digitValue c with
      | Some d => digitsValue s' (10 * acc + d)%N
      | None => None
      end
  end.

(** [0|[1-9]\d*] *)
Definition numericIdentifier (s : string) : option N :=
  match s with
  | EmptyString => None
  | String c (String _ _) => if Ascii.eqb c "0" then None else digitsValue s 0
  | _ => digitsValue s 0
  end.

Fixpoint split (sep : ascii) (s : string) : list string :=
  match s with
  | EmptyString => [EmptyString]
  | String c s' =>
      if Ascii.eqb c sep then EmptyString :: split sep s'
      else match split sep s' with
           | h :: t => String c h :: t
           | [] => [String c EmptyString]
           end
  end.

Definition plainVersion (s : string) : option (N * N * N) :=
  match map numericIdentifier (split "." s) with
  | [Some major; Some minor; Some patch] => Some (major, minor, patch)
  | _ => None
  end.

Definition compareVersions (a b : N * N * N) : comparison :=
  let '(a1, a2, a3) := a in
  let '(b1, b2, b3) := b in
  match (a1 ?= b1)%N with
  | Eq => match (a2 ?= b2)%N with
          | Eq => (a3 ?= b3)%N
          | c => c
          end
  | c => c
  end.

Definition compareWith (test : comparison -> bool) (a b : string) : Completion bool :=
  match plainVersion a, plainVersion b with
  | Some x, Some y => Normal (test (compareVersions x y))
  | _, _ => Throw "Invalid Version"
  end.

#[local] Instance plainSemver : SemverPackage := {|
  semver_valid := fun s =>
    match plainVersion s with Some _ => Some s | None => None end;
  semver_gt := compareWith (fun c => match c with Gt => true | _ => false end);
  semver_lt := compareWith (fun c => match c with Lt => true | _ => false end)
|}.

(** Upper-casing of the ASCII letters and comparison by code units. *)
Definition upperAscii (c : ascii) : ascii :=
  let n := N_of_ascii c in
  if ((97 <=? n) && (n <=? 122))%N then ascii_of_N (n - 32) else c.

Fixpoint upper (s : string) : string :=
  match s with
  | EmptyString => EmptyString
  | String c s' => String (upperAscii c) (upper s')
  end.

Definition sign (c : comparison) : Z :=
  match c with
  | Lt => -1
  | Eq => 0
  | Gt => 1
  end.

#[local] Instance asciiLocale : StringLocale := {|
  toUpperCase := upper;
  localeCompare := fun a b _ => sign (String_as_OT.compare a b)
|}.

#[local] Instance premiumEnum : SharedEnums := {| PREMIUM := "PREMIUM" |}.

Definition plainBase (display : string) (cats : option (list PieceCategory))
  : PieceMetadataBase unit :=
  {| base_displayName := display;
     base_categories := cats;
     base_directoryPath := None;
     base_minimumSupportedRelease := None;
     base_maximumSupportedRelease := None;
     base_rest := tt |}.

Definition plainPiece (display : string) (cats : option (list PieceCategory))
    (minRelease maxRelease : option string) : Piece unit :=
  {| piece_name := display;
     piece_displayName := display;
     piece_version := "0.0.1";
     piece_minimumSupportedRelease := minRelease;
     piece_maximumSupportedRelease := maxRelease;
     piece_metadata := plainBase display cats |}.

(** The NocoDB piece of the sources: [displayName: 'NocoDB'],
    [minimumSupportedRelease: '0.20.0']. *)
Definition nocodb : Piece unit := plainPiece "NocoDB" None (Some "0.20.0") None.

Definition nocodbFolder : string := "/dist/packages/pieces/community/nocodb".
Definition airtableFolder : string := "/dist/packages/pieces/community/airtable".
Definition brokenFolder : string := "/dist/packages/pieces/community/broken".
Definition staleFolder : string := "/dist/packages/pieces/community/stale".
Definition ssoFolder : string := "/dist/packages/ee/pieces/sso".
Definition auditFolder : string := "/dist/packages/ee/pieces/audit".
Definition oldPremiumFolder : string := "/dist/packages/pieces/community/old-premium".

(** A [dist] folder with seven packages: two sound community pieces, one
    whose module does not load, one whose release bounds are crossed, a
    sound enterprise piece, an enterprise piece outside the premium
    category and a premium piece that supports too old a release. *)
#[local] Instance sampleHost : PieceHost unit := {|
  findAllDistPaths :=
    Normal [nocodbFolder; brokenFolder; airtableFolder; staleFolder;
            ssoFolder; auditFolder; oldPremiumFolder];
  readPackageJson := fun path =>
    Normal {| pkg_name := path; pkg_version := "0.0.1"; pkg_keywords := [] |};
  importPiece := fun folderPath _ _ =>
    if (folderPath =? nocodbFolder)%string then Normal nocodb
    else if (folderPath =? airtableFolder)%string
    then Normal (plainPiece "airtable" None None None)
    else if (folderPath =? staleFolder)%string
    then Normal (plainPiece "Stale" None (Some "2.0.0") (Some "1.0.0"))
    else if (folderPath =? ssoFolder)%string
    then Normal (plainPiece "SSO" (Some ["PREMIUM"]) (Some "0.27.1") None)
    else if (folderPath =? auditFolder)%string
    then Normal (plainPiece "Audit" (Some ["CORE"]) (Some "0.30.0") None)
    else if (folderPath =? oldPremiumFolder)%string
    then Normal (plainPiece "Old" (Some ["PREMIUM"]) (Some "0.27.0") None)
    else Throw "Cannot find module"
|}.

(** An engine host: a template is one token, written between double
    braces, or plain text; the one operator compares two texts; scripts
    and pieces echo their input. *)
Definition wholeToken (s : string) : list Engine.Segment :=
  if String.prefix "{{" s
  then [Engine.Token
          (Engine.StepRef (String.substring 2 (String.length s - 4) s) [])]
  else [Engine.Literal s].

Definition sameText (a b : Engine.JsonValue) : bool :=
  match a, b with
  | Engine.JString x, Engine.JString y => (x =? y)%string
  | _, _ => false
  end.

#[local] Instance echoHost : Engine.Host := {|
  Engine.tokenize := wholeToken;
  Engine.stringify := fun _ => "[value]";
  Engine.applyOperator := fun _ => sameText;
  Engine.runCode := fun _ input _ => inr input;
  Engine.invoke := fun _ _ input _ _ _ => Engine.ProviderOutput input
|}.

(** The same host with scripts that throw and pieces that fail, at every
    attempt. *)
#[local] Instance failingHost : Engine.Host := {|
  Engine.tokenize := wholeToken;
  Engine.stringify := fun _ => "[value]";
  Engine.applyOperator := fun _ => sameText;
  Engine.runCode := fun _ _ _ => inl "boom";
  Engine.invoke := fun _ _ _ _ _ _ => Engine.ProviderError "boom"
|}.

(** [generateMockEngineConstants({ retryConstants: { ... } })] *)
Definition retrying (attempts exponential interval : Z) : Engine.EngineConstants :=
  Engine.generateMockEngineConstants
    (Some {| Engine.p_flowId := None;
             Engine.p_flowVersionId := None;
             Engine.p_flowVersionState := None;
             Engine.p_flowRunId := None;
             Engine.p_publicUrl := None;
             Engine.p_internalApiUrl := None;
             Engine.p_retryConstants :=
               Some {| Engine.maxAttempts := attempts;
                       Engine.retryExponential := exponential;
                       Engine.retryInterval := interval |};
             Engine.p_engineToken := None;
             Engine.p_projectId := None;
             Engine.p_variableService := None;
             Engine.p_testSingleStepMode := None;
             Engine.p_progressUpdateType := None;
             Engine.p_serverHandlerId := None;
             Engine.p_httpRequestId := None;
             Engine.p_resumePayload := None |}).

Definition retryThrice (exponential interval : Z) : Engine.EngineConstants :=
  retrying 3 exponential interval.

Definition policy (continue retry : bool) : option Engine.ActionErrorHandlingOptions :=
  Some {| Engine.continueOnFailure := continue; Engine.retryOnFailure := retry |}.

End Fixtures.

(** ** Piece folders on disk *)

Module PieceFolders.

Import PieceLoader.

(** What [stat] finds at a path: a file, a directory with the entries
    [readdir] lists, a directory that [readdir] refuses to list (no
    permission), or nothing [stat] can read (no such entry, a dangling
    link), in which case it rejects.  The tree is taken not to change while
    it is walked. *)
Inductive Node : Type :=
| File
| Unreadable
| Unlistable
| Directory (entries : list (string * Node)).

(** [fileStats.isDirectory()] *)
Definition isDirectory (fileStats : Node) : bool :=
  match fileStats with
  | Directory _ => true
  | Unlistable => true
  | _ => false
  end.

(** [node:path], [node:process] and [node:fs/promises] as the loader uses
    them: [cwd()], [resolve(...segments)], [join(a, b)], [stat(path)] and
    [readFile(path)] followed by [JSON.parse]. *)
Class FileSystem : Type := {
  cwd : string;
  resolve : list string -> string;
  join : string -> string -> string;
  stat : string -> Node;
  readJsonFile : string -> Completion PackageJson
}.

Definition PIECES_FOLDER : string := "packages/pieces".
Definition COMMUNITY_PIECE_FOLDER : string := "packages/pieces/community".

(** The [for (const file of files)] loops of the two walks: the paths each
    entry contributes, in order, unless an entry throws. *)
Definition gather {A} (visit : A -> Completion (list string))
  : list A -> Completion (list string) :=
  fix each (files : list A) : Completion (list string) :=
    match files with
    | [] => Normal []
    | file :: files' =>
        found <- visit file ;;
        rest <- each files' ;;
        Normal (found ++ rest)%list
    end.

Section Folders.

Context `{FileSystem}.

(** [node] is what [stat(folderPath)] finds; [readdir] rejects unless it is
    a directory. *)
Fixpoint findAllPiecesFolder (folderPath : string) (node : Node)
  : Completion (list string) :=
  match node with
  | Directory files =>
      gather
        (fun entry : string * Node =>
           let (file, fileStats) := entry in
           let filePath := join folderPath file in
           match fileStats with
           | Unreadable => Throw "ENOENT"
           | _ =>
               if isDirectory fileStats
                  && negb (file =? "node_modules")%string
                  && negb (file =? "dist")%string
                  && negb (file =? "framework")%string
                  && negb (file =? "common")%string
               then findAllPiecesFolder filePath fileStats
               else if (file =? "package.json")%string
                    then Normal [folderPath]
                    else Normal []
           end)
        files
  | File => Throw "ENOTDIR"
  | Unreadable => Throw "ENOENT"
  | Unlistable => Throw "EACCES"
  end.

Definition readPackageJson (path : string) : Completion PackageJson :=
  readJsonFile (path ++ "/package.json").

(** [node] is what [stat(folderPath)] finds; a rejection of that first
    [stat] is caught, one of [readdir] is not. *)
Fixpoint traverseFolder (folderPath : string) (node : Node)
  : Completion (list string) :=
  match node with
  | Directory files =>
      gather
        (fun entry : string * Node =>
           let (file, fileStats) := entry in
           let filePath := join folderPath file in
           match fileStats with
           | Unreadable => Throw "ENOENT"
           | _ =>
               if isDirectory fileStats
                  && negb (file =? "node_modules")%string
                  && negb (file =? "dist")%string
               then traverseFolder filePath fileStats
               else if (file =? "package.json")%string
                    then Normal [folderPath]
                    else Normal []
           end)
        files
  | Unlistable => Throw "EACCES"
  | _ => Normal []
  end.

Definition findAllDistPaths : Completion (list string) :=
  let baseDir := resolve [cwd; "dist"; "packages"] in
  let standardPiecesPath := resolve [baseDir; "pieces"] in
  let enterprisePiecesPath := resolve [baseDir; "ee"; "pieces"] in
  standard <- traverseFolder standardPiecesPath (stat standardPiecesPath) ;;
  enterprise <- traverseFolder enterprisePiecesPath (stat enterprisePiecesPath) ;;
  Normal (standard ++ enterprise)%list.

(** The loop of [findDirectoryByPackageName]: a manifest that does not read
    or parse is logged and passed over.  A manifest that parses is taken to
    carry a name. *)
Fixpoint firstWithName (packageName : string) (paths : list string)
  : option string :=
  match paths with
  | [] => None
  | path :: paths' =>
      match readJsonFile (join path "package.json") with
      | Normal packageJson =>
          if (pkg_name packageJson =? packageName)%string
          then Some path
          else firstWithName packageName paths'
      | Throw _ => firstWithName packageName paths'
      end
  end.

Definition findDirectoryByPackageName (packageName : string)
  : Completion (option string) :=
  let root := resolve [cwd; "dist"; "packages"; "pieces"] in
  paths <- findAllPiecesFolder root (stat root) ;;
  Normal (firstWithName packageName paths).

Definition getCommunityPieceFolder (pieceName : string) : string :=
  join COMMUNITY_PIECE_FOLDER pieceName.

Definition findAllPiecesDirectoryInSource : Completion (list string) :=
  let piecesPath := resolve [cwd; "packages"; "pieces"] in
  paths <- traverseFolder piecesPath (stat piecesPath) ;;
  let enterprisePiecesPath := resolve [cwd; "packages"; "ee"; "pieces"] in
  enterprisePiecesPaths <-
    traverseFolder enterprisePiecesPath (stat enterprisePiecesPath) ;;
  Normal (paths ++ enterprisePiecesPaths)%list.

Definition findPieceDirectoryInSource (pieceName : string)
  : Completion (option string) :=
  piecesPath <- findAllPiecesDirectoryInSource ;;
  Normal (find (fun p => includes p pieceName) piecesPath).

(** The loader's host when the folders come from the disk; [load] is the
    dynamic import followed by [extractPieceFromModule]. *)
Definition diskHost {Rest : Type}
    (load : string -> string -> string -> Completion (Piece Rest))
  : PieceHost Rest :=
  {| PieceLoader.findAllDistPaths := findAllDistPaths;
     PieceLoader.readPackageJson := readPackageJson;
     PieceLoader.importPiece := load |}.

(** *** Describing a walk *)

(** The names [traverseFolder] does not descend into, and those
    [findAllPiecesFolder] does not. *)
Definition skippedByTraverse (file : string) : bool :=
  (file =? "node_modules")%string || (file =? "dist")%string.

Definition skippedByFind (file : string) : bool :=
  (file =? "node_modules")%string || (file =? "dist")%string
  || (file =? "framework")%string || (file =? "common")%string.

(** [Reaches skipped path node target files]: going down from the directory
    [node] at [path], through directories only and through none whose name
    is [skipped], one arrives at the directory [target], which lists
    [files]. *)
Inductive Reaches (skipped : string -> bool)
  : string -> Node -> string -> list (string * Node) -> Prop :=
| Reaches_here (path : string) (files : list (string * Node)) :
    Reaches skipped path (Directory files) path files
| Reaches_down (path : string) (files : list (string * Node))
    (file : string) (child : Node)
    (target : string) (found : list (string * Node)) :
    In (file, child) files ->
    skipped file = false ->
    Reaches skipped (join path file) child target found ->
    Reaches skipped path (Directory files) target found.

(** [Refuses skipped path node target]: going down in the same way one
    arrives at [target], a directory that [readdir] refuses to list. *)
Inductive Refuses (skipped : string -> bool)
  : string -> Node -> string -> Prop :=
| Refuses_here (path : string) :
    Refuses skipped path Unlistable path
| Refuses_down (path : string) (files : list (string * Node))
    (file : string) (child : Node) (target : string) :
    In (file, child) files ->
    skipped file = false ->
    Refuses skipped (join path file) child target ->
    Refuses skipped path (Directory files) target.

(** A walk is stopped: it reaches a directory that lists an entry [stat]
    cannot read, or one that [readdir] refuses to list. *)
Definition Stopped (skipped : string -> bool) (path : string) (node : Node)
  : Prop :=
  (exists folder files file,
      Reaches skipped path node folder files /\ In (file, Unreadable) files) \/
  (exists folder, Refuses skipped path node folder).

(** The common shape of the two walks, for reasoning about both at once. *)
Fixpoint walk (skipped : string -> bool) (folderPath : string) (node : Node)
  : Completion (list string) :=
  match node with
  | Directory files =>
      gather
        (fun entry : string * Node =>
           let (file, fileStats) := entry in
           match fileStats with
           | Unreadable => Throw "ENOENT"
           | _ =>
               if isDirectory fileStats && negb (skipped file)
               then walk skipped (join folderPath file) fileStats
               else if (file =? "package.json")%string
                    then Normal [folderPath]
                    else Normal []
           end)
        files
  | Unlistable => Throw "EACCES"
  | _ => Normal []
  end.

End Folders.

End PieceFolders.

(** ** The platform domain helper *)

Module PlatformDomain.

(** [s.endsWith(suffix)] *)
Fixpoint endsWith (s suffix : string) : bool :=
  if (s =? suffix)%string then true
  else match s with
       | EmptyString => false
       | String _ rest => endsWith rest suffix
       end.

(** A value of type [string | undefined] as [+] and a template literal
    print it. *)
Definition toText (v : option string) : string :=
  match v with
  | Some s => s
  | None => "undefined"
  end.

(** The field of a custom domain the helper reads. *)
Record CustomDomain : Type := {
  domain : string
}.

(** [system.get(SystemProp.FRONTEND_URL)] and the two lookups of
    [customDomainService]; a lookup resolves to a custom domain or to null,
    or rejects. *)
Class PlatformHost : Type := {
  frontendUrl : option string;
  getOneByDomain : string -> Completion (option CustomDomain);
  getOneByPlatform : string -> Completion (option CustomDomain)
}.

Section Helper.

Context `{PlatformHost}.

(** [domain + (domain?.endsWith('/') ? '' : '/')] *)
Definition closeWithSlash (domain : option string) : string :=
  toText domain
  ++ (if match domain with
         | Some d => endsWith d "/"
         | None => false
         end
      then EmptyString else "/").

Definition getFrontendDomainFromHostname (hostname : string) : Completion string :=
  let domain := frontendUrl in
  customDomain <- getOneByDomain hostname ;;
  let domain :=
    match customDomain with
    | Some c => Some ("https://" ++ PlatformDomain.domain c ++ "/")
    | None => domain
    end in
  Normal (closeWithSlash domain).

Definition getFrontendDomain (platformId : option string) : Completion string :=
  let domain := frontendUrl in
  domain <- (if truthy platformId
             then customDomain <- getOneByPlatform (coalesce platformId EmptyString) ;;
                  Normal match customDomain with
                         | Some c => Some ("https://" ++ PlatformDomain.domain c ++ "/")
                         | None => domain
                         end
             else Normal domain) ;;
  Normal (closeWithSlash domain).

Definition constructUrlFrom (platformId : option string) (path : string)
  : Completion string :=
  domain <- getFrontendDomain platformId ;;
  Normal (domain ++ path).

Definition constructUrlFromRequest (domain path : string) : Completion string :=
  domainWithProtocol <- getFrontendDomainFromHostname domain ;;
  Normal (domainWithProtocol ++ path).

End Helper.

End PlatformDomain.

(** ** A disk and a platform, for running the definitions *)

Module DiskFixtures.

Import PieceLoader PieceFolders.

Definition slashJoin (a b : string) : string := a ++ "/" ++ b.

Definition manifest : string * Node := ("package.json", File).

(** [dist/packages/pieces]: two community pieces, one with sources and
    installed dependencies, and the framework package. *)
Definition distPieces : Node :=
  Directory
    [("community",
      Directory
        [("nocodb",
          Directory
            [manifest;
             ("src", Directory [("index.js", File)]);
             ("node_modules",
              Directory [("semver", Directory [manifest])])]);
         ("airtable", Directory [manifest]);
         ("framework", Directory [manifest])]);
     ("README.md", File)].

(** [dist/packages/ee/pieces] *)
Definition distEnterprise : Node :=
  Directory [("sso", Directory [manifest])].

(** [packages/pieces], the sources: two pieces with similar names. *)
Definition sourcePieces : Node :=
  Directory
    [("community",
      Directory [("slack-bot", Directory [manifest]);
                 ("slack", Directory [manifest])])].

Definition piecesRoot : string := "/app/dist/packages/pieces".
Definition sourceRoot : string := "/app/packages/pieces".
Definition enterpriseRoot : string := "/app/dist/packages/ee/pieces".
Definition nocodbDist : string := "/app/dist/packages/pieces/community/nocodb".
Definition airtableDist : string := "/app/dist/packages/pieces/community/airtable".
Definition frameworkDist : string := "/app/dist/packages/pieces/community/framework".
Definition ssoDist : string := "/app/dist/packages/ee/pieces/sso".

Definition manifestNamed (name : string) : PackageJson :=
  {| pkg_name := name; pkg_version := "0.0.1"; pkg_keywords := [] |}.

(** The manifest of the airtable folder does not parse. *)
Definition readSample (path : string) : Completion PackageJson :=
  if (path =? nocodbDist ++ "/package.json")%string
  then Normal (manifestNamed "@activepieces/piece-nocodb")
  else if (path =? frameworkDist ++ "/package.json")%string
  then Normal (manifestNamed "@activepieces/pieces-framework")
  else if (path =? ssoDist ++ "/package.json")%string
  then Normal (manifestNamed "@activepieces/piece-sso")
  else Throw "Unexpected token".

#[local] Instance sampleDisk : FileSystem := {|
  cwd := "/app";
  resolve := String.concat "/";
  join := slashJoin;
  stat := fun path =>
    if (path =? piecesRoot)%string then distPieces
    else if (path =? enterpriseRoot)%string then distEnterprise
    else if (path =? sourceRoot)%string then sourcePieces
    else Unreadable;
  readJsonFile := readSample
|}.

(** The same disk with a dangling link beside the community pieces. *)
#[local] Instance brokenDisk : FileSystem := {|
  cwd := "/app";
  resolve := String.concat "/";
  join := slashJoin;
  stat := fun path =>
    if (path =? piecesRoot)%string
    then Directory [("community", Directory [("airtable", Directory [manifest]);
                                             ("dangling", Unreadable)])]
    else Unreadable;
  readJsonFile := readSample
|}.

(** The same disk with a community folder that may not be listed. *)
#[local] Instance sealedDisk : FileSystem := {|
  cwd := "/app";
  resolve := String.concat "/";
  join := slashJoin;
  stat := fun path =>
    if (path =? piecesRoot)%string
    then Directory [("README.md", File); ("community", Unlistable)]
    else if (path =? enterpriseRoot)%string then Unlistable
    else Unreadable;
  readJsonFile := readSample
|}.

Definition loadSample (folderPath pieceName pieceVersion : string)
  : Completion (Piece unit) :=
  if (folderPath =? nocodbDist)%string then Normal Fixtures.nocodb
  else if (folderPath =? ssoDist)%string
  then Normal (Fixtures.plainPiece "SSO" (Some ["PREMIUM"]) (Some "0.27.1") None)
  else Throw "Cannot find module".

(** The listing of the pieces of the sample disk. *)
Definition diskListing : Completion (list (PieceMetadata unit)) :=
  @findAllPieces unit Fixtures.premiumEnum Fixtures.plainSemver
    Fixtures.asciiLocale (diskHost (H := sampleDisk) loadSample).

(** A platform with one custom domain. *)
#[local] Instance cloudPlatform : PlatformDomain.PlatformHost := {|
  PlatformDomain.frontendUrl := Some "https://cloud.activepieces.com";
  PlatformDomain.getOneByDomain := fun hostname =>
    if (hostname =? "flows.acme.com")%string
    then Normal (Some {| PlatformDomain.domain := "flows.acme.com" |})
    else Normal None;
  PlatformDomain.getOneByPlatform := fun platformId =>
    if (platformId =? "acme")%string
    then Normal (Some {| PlatformDomain.domain := "flows.acme.com" |})
    else if (platformId =? "down")%string
    then Throw "connection refused"
    else Normal None
|}.

End DiskFixtures.

(** * Part II: theorems *)

(** ** Sorting *)

Section SortFacts.

Context {A : Type} (compareFn : A -> A -> Z).

Let notAfter (a b : A) : Prop := compareFn a b <= 0.

Lemma insert_perm (x : A) (l : list A) : Permutation (insert compareFn x l) (x :: l).
Proof.
  induction l as [|y l IH]; simpl.
  - apply Permutation_refl.
  - destruct (compareFn x y <=? 0).
    + apply Permutation_refl.
    + apply Permutation_trans with (y :: x :: l).
      * now apply perm_skip.
      * apply perm_swap.
Qed.

Lemma sort_perm (l : list A) : Permutation (sort compareFn l) l.
Proof.
  induction l as [|x l IH]; simpl.
  - apply perm_nil.
  - eapply Permutation_trans; [apply insert_perm|]. now apply perm_skip.
Qed.

Lemma sort_In (l : list A) (x : A) : In x (sort compareFn l) <-> In x l.
Proof.
  split; apply Permutation_in; [|apply Permutation_sym]; apply sort_perm.
Qed.

Hypothesis total : forall a b, 0 < compareFn a b -> compareFn b a <= 0.
Hypothesis transitive :
  forall a b c, compareFn a b <= 0 -> compareFn b c <= 0 -> compareFn a c <= 0.

Lemma insert_sorted (x : A) (l : list A) :
  StronglySorted notAfter l -> StronglySorted notAfter (insert compareFn x l).
Proof.
  induction 1 as [|y l Hl IH Hy]; simpl.
  - constructor; [constructor | constructor].
  - destruct (Z.leb_spec (compareFn x y) 0) as [Hxy|Hxy].
    + constructor; [now constructor|].
      constructor; [exact Hxy|].
      rewrite Forall_forall in Hy |- *. intros z Hz.
      apply transitive with y; [exact Hxy | now apply Hy].
    + constructor; [exact IH|].
      rewrite Forall_forall in Hy |- *. intros z Hz.
      apply (Permutation_in _ (insert_perm x l)) in Hz.
      destruct Hz as [<-|Hz]; [now apply total | now apply Hy].
Qed.

Lemma sort_sorted (l : list A) : StronglySorted notAfter (sort compareFn l).
Proof.
  induction l as [|x l IH]; simpl; [constructor | now apply insert_sorted].
Qed.

End SortFacts.

(** ** The piece loader *)

Section LoaderFacts.

Import PieceLoader.

Context {Rest : Type}.
Context `{SharedEnums} `{SemverPackage} `{StringLocale} `{PieceHost Rest}.

Lemma completion_unit_cases (c : Completion unit) : c = Normal tt \/ throws c.
Proof. destruct c as [[]|m]; [now left | right; now exists m]. Qed.

Lemma throws_bind_l {A B} (c : Completion A) (k : A -> Completion B) :
  throws c -> throws (Js.bind c k).
Proof. intros [m ->]. now exists m. Qed.

Lemma filterNotNull_In {A B} (f : A -> option B) (l : list A) (y : B) :
  In y (filterNotNull (map f l)) <-> exists x, In x l /\ f x = Some y.
Proof.
  induction l as [|a l IH]; simpl.
  - split; [contradiction | now intros (x & [] & _)].
  - destruct (f a) as [b|] eqn:E; simpl; rewrite IH.
    + split.
      * intros [<-|(x & Hx & Hf)]; [exists a; auto | exists x; auto].
      * intros (x & [<-|Hx] & Hf); [left; congruence | right; eauto].
    + split.
      * intros (x & Hx & Hf); eauto.
      * intros (x & [<-|Hx] & Hf); [congruence | eauto].
Qed.

Lemma filterNotNull_length {A B} (f : A -> option B) (l : list A) :
  List.length (filterNotNull (map f l))
  = List.length (filter (fun x => match f x with Some _ => true | None => false end) l).
Proof.
  induction l as [|a l IH]; simpl; [reflexivity|].
  destruct (f a); simpl; now rewrite IH.
Qed.

(** A folder yields a piece exactly when its manifest reads, its module
    loads and the assembled metadata validates. *)
Lemma loadPieceFromFolder_Some (folderPath : string) (metadata : PieceMetadata Rest) :
  loadPieceFromFolder folderPath = Some metadata <->
  exists packageJson piece,
    readPackageJson folderPath = Normal packageJson /\
    importPiece folderPath (pkg_name packageJson) (pkg_version packageJson)
      = Normal piece /\
    metadata = assembleMetadata folderPath packageJson piece /\
    validateMetadata metadata = Normal tt.
Proof.
  unfold loadPieceFromFolder, loadPieceFromFolder_try.
  split.
  - destruct (readPackageJson folderPath) as [pkg|] eqn:Er; simpl; [|discriminate].
    destruct (importPiece folderPath (pkg_name pkg) (pkg_version pkg))
      as [piece|] eqn:Ei; simpl; [|discriminate].
    destruct (validateMetadata (assembleMetadata folderPath pkg piece))
      as [[]|] eqn:Ev; simpl; [|discriminate].
    intros [= <-]. exists pkg, piece. auto.
  - intros (pkg & piece & Hr & Hi & -> & Hv).
    rewrite Hr; simpl. rewrite Hi; simpl. now rewrite Hv.
Qed.

Lemma loadPieceFromFolder_directoryPath (folderPath : string)
    (metadata : PieceMetadata Rest) :
  loadPieceFromFolder folderPath = Some metadata ->
  directoryPath metadata = Some folderPath.
Proof.
  rewrite loadPieceFromFolder_Some. now intros (pkg & piece & _ & _ & -> & _).
Qed.

Lemma loadPieceFromFolder_throws (folderPath : string)
    (packageJson : PackageJson) (piece : Piece Rest) :
  readPackageJson folderPath = Normal packageJson ->
  importPiece folderPath (pkg_name packageJson) (pkg_version packageJson)
    = Normal piece ->
  throws (validateMetadata (assembleMetadata folderPath packageJson piece)) ->
  loadPieceFromFolder folderPath = None.
Proof.
  intros Hr Hi [m Hv].
  unfold loadPieceFromFolder, loadPieceFromFolder_try.
  rewrite Hr; simpl. rewrite Hi; simpl. now rewrite Hv.
Qed.

Lemma findAllPieces_In (pieces : list (PieceMetadata Rest))
    (metadata : PieceMetadata Rest) :
  findAllPieces = Normal pieces ->
  In metadata pieces ->
  exists folderPath, loadPieceFromFolder folderPath = Some metadata.
Proof.
  unfold findAllPieces.
  destruct findAllDistPaths as [paths|]; simpl; [|discriminate].
  intros [= <-]. rewrite sort_In, filterNotNull_In.
  intros (p & _ & Hp). now exists p.
Qed.

(** A folder whose load fails contributes no piece to the listing. *)
Lemma findAllPieces_excludes (folderPath : string)
    (pieces : list (PieceMetadata Rest)) :
  loadPieceFromFolder folderPath = None ->
  findAllPieces = Normal pieces ->
  forall metadata, In metadata pieces -> directoryPath metadata <> Some folderPath.
Proof.
  intros Hnone Hall metadata Hin Hdir.
  destruct (findAllPieces_In _ _ Hall Hin) as (p & Hp).
  pose proof (loadPieceFromFolder_directoryPath _ _ Hp) as Hd.
  rewrite Hd in Hdir. injection Hdir as ->. congruence.
Qed.

Lemma arrayIncludes_In (xs : list string) (x : string) :
  arrayIncludes xs x = true <-> In x xs.
Proof.
  unfold arrayIncludes. rewrite existsb_exists. split.
  - intros (y & Hy & Heq). apply String.eqb_eq in Heq. now subst.
  - intros Hx. exists x. split; [exact Hx | apply String.eqb_refl].
Qed.

Lemma validatePremiumPiece_Normal (metadata : PieceMetadata Rest) :
  validatePremiumPiece metadata = Normal tt <-> premiumRules metadata.
Proof.
  unfold validatePremiumPiece, premiumRules.
  pose proof (arrayIncludes_In (coalesce (categories metadata) []) PREMIUM) as Hin.
  destruct (arrayIncludes (coalesce (categories metadata) []) PREMIUM) eqn:Ecat;
    simpl.
  - rewrite andb_false_r.
    assert (Hp : In PREMIUM (coalesce (categories metadata) [])) by now apply Hin.
    destruct (minimumSupportedRelease metadata) as [m|] eqn:Emin; simpl.
    + destruct (String.eqb_spec m EmptyString) as [->|Hne]; simpl.
      * split; [discriminate|]. intros [_ Hr].
        destruct (Hr Hp) as (m & [= <-] & Hm & _). now elim Hm.
      * destruct (semver_lt m "0.27.1") as [[|]|msg] eqn:Elt; simpl.
        -- split; [discriminate|]. intros [_ Hr].
           destruct (Hr Hp) as (m' & [= <-] & _ & Hlt). congruence.
        -- split; [|reflexivity]. intros _. split; [auto|].
           intros _. exists m. auto.
        -- split; [discriminate|]. intros [_ Hr].
           destruct (Hr Hp) as (m' & [= <-] & _ & Hlt). congruence.
    + split; [discriminate|]. intros [_ Hr].
      destruct (Hr Hp) as (m & Hm & _). discriminate.
  - rewrite andb_true_r.
    assert (Hp : ~ In PREMIUM (coalesce (categories metadata) [])).
    { intros Hc. apply Hin in Hc. discriminate. }
    destruct (directoryPath metadata) as [d|] eqn:Edir.
    + destruct (includes d "/ee/") eqn:Einc; simpl.
      * split; [discriminate|]. intros [Hr _]. elim Hp. now apply (Hr d).
      * split; [|reflexivity]. intros _. split.
        -- intros d' [= <-] Hd. congruence.
        -- intros Hc. now elim Hp.
    + simpl. split; [|reflexivity]. intros _. split.
      * intros d [=].
      * intros Hc. now elim Hp.
Qed.

(** C8: [findAllPieces] returns the metadata of every piece that loads and
    validates, and of no other; the list is in ascending order of the
    upper-cased display names under the [en] locale comparison; a folder
    whose load or validation throws yields null, which is filtered out, and
    the listing is still returned.  The locale comparison is taken to be a
    total preorder, as a collation is. *)
Theorem findAllPieces_sorted_listing (paths : list string)
    (total : forall a b : string,
        0 < localeCompare a b "en" -> localeCompare b a "en" <= 0)
    (transitive : forall a b c : string,
        localeCompare a b "en" <= 0 -> localeCompare b c "en" <= 0 ->
        localeCompare a c "en" <= 0)
    (listed : findAllDistPaths = Normal paths) :
  exists pieces : list (PieceMetadata Rest),
    findAllPieces = Normal pieces /\
    (forall metadata,
        In metadata pieces <->
        exists folderPath packageJson piece,
          In folderPath paths /\
          readPackageJson folderPath = Normal packageJson /\
          importPiece folderPath (pkg_name packageJson) (pkg_version packageJson)
            = Normal piece /\
          metadata = assembleMetadata folderPath packageJson piece /\
          validateMetadata metadata = Normal tt) /\
    List.length pieces
      = List.length (filter (fun p => match loadPieceFromFolder p with
                                      | Some _ => true
                                      | None => false
                                      end) paths) /\
    StronglySorted
      (fun a b => localeCompare (toUpperCase (displayName a))
                    (toUpperCase (displayName b)) "en" <= 0) pieces /\
    (forall folderPath,
        In folderPath paths ->
        throws (loadPieceFromFolder_try folderPath) ->
        loadPieceFromFolder folderPath = None /\
        forall metadata, In metadata pieces ->
                         directoryPath metadata <> Some folderPath).
Proof.
  assert (Hall : findAllPieces
                 = Normal (sort byDisplayNameIgnoreCase
                             (filterNotNull (map loadPieceFromFolder paths)))).
  { unfold findAllPieces. now rewrite listed. }
  eexists. split; [exact Hall|].
  split; [|split; [|split]].
  - intros metadata. rewrite sort_In, filterNotNull_In. split.
    + intros (p & Hp & Hload). apply loadPieceFromFolder_Some in Hload.
      destruct Hload as (pkg & piece & Hr & Hi & Hm & Hv).
      exists p, pkg, piece. auto.
    + intros (p & pkg & piece & Hp & Hr & Hi & Hm & Hv).
      exists p. split; [exact Hp|].
      apply loadPieceFromFolder_Some. exists pkg, piece. auto.
  - rewrite (Permutation_length (sort_perm _ _)). apply filterNotNull_length.
  - apply sort_sorted; unfold byDisplayNameIgnoreCase; intros;
      [now apply total | eapply transitive; eassumption].
  - intros folderPath _ [m Hm].
    assert (Hnone : loadPieceFromFolder folderPath = None)
      by (unfold loadPieceFromFolder; now rewrite Hm).
    split; [exact Hnone|].
    now apply findAllPieces_excludes.
Qed.

(** C9: [loadPieceFromFolder] gives a piece without
    [minimumSupportedRelease] the bound 0.0.0 and one without
    [maximumSupportedRelease] the bound 99999.99999.9999; when either bound
    of the assembled metadata is not a valid version, or the minimum is
    greater than the maximum, [validateMetadata] throws, the folder yields
    null and no listed piece comes from it. *)
Theorem loadPieceFromFolder_release_bounds (folderPath : string)
    (packageJson : PackageJson) (piece : Piece Rest)
    (manifest : readPackageJson folderPath = Normal packageJson)
    (module : importPiece folderPath (pkg_name packageJson)
                (pkg_version packageJson) = Normal piece) :
  let metadata := assembleMetadata folderPath packageJson piece in
  let minRelease := coalesce (piece_minimumSupportedRelease piece) "0.0.0" in
  let maxRelease :=
    coalesce (piece_maximumSupportedRelease piece) "99999.99999.9999" in
  minimumSupportedRelease metadata = Some minRelease /\
  maximumSupportedRelease metadata = Some maxRelease /\
  (piece_minimumSupportedRelease piece = None -> minRelease = "0.0.0") /\
  (piece_maximumSupportedRelease piece = None ->
   maxRelease = "99999.99999.9999") /\
  (semver_valid minRelease = None \/
   semver_valid maxRelease = None \/
   semver_gt minRelease maxRelease = Normal true ->
   throws (validateMetadata metadata) /\
   loadPieceFromFolder folderPath = None /\
   forall pieces, findAllPieces = Normal pieces ->
     forall listed, In listed pieces -> directoryPath listed <> Some folderPath).
Proof.
  intros metadata minRelease maxRelease.
  split; [reflexivity|]. split; [reflexivity|].
  split; [now intros Hmin; unfold minRelease; rewrite Hmin|].
  split; [now intros Hmax; unfold maxRelease; rewrite Hmax|].
  intros Hbad.
  assert (Hthrows : throws (validateMetadata metadata)).
  { unfold validateMetadata. apply throws_bind_l.
    unfold validateSupportedRelease; simpl.
    fold minRelease maxRelease.
    destruct (truthy (semver_valid minRelease)) eqn:Emin; simpl;
      [|eexists; reflexivity].
    destruct (truthy (semver_valid maxRelease)) eqn:Emax; simpl;
      [|eexists; reflexivity].
    destruct Hbad as [Hb|[Hb|Hb]].
    - rewrite Hb in Emin. discriminate.
    - rewrite Hb in Emax. discriminate.
    - rewrite Hb. simpl. eexists; reflexivity. }
  assert (Hnone : loadPieceFromFolder folderPath = None)
    by (eapply loadPieceFromFolder_throws; eassumption).
  split; [exact Hthrows|]. split; [exact Hnone|].
  intros pieces Hall. now apply findAllPieces_excludes.
Qed.

(** C10: [validatePremiumPiece] passes exactly the metadata that obey
    [premiumRules]: a piece under a [/ee/] directory is in the premium
    category, and a premium piece supports no release below 0.27.1.
    Metadata that break a rule make [validateMetadata] throw, and a folder
    that assembles such metadata yields null and no listed piece. *)
Theorem validatePremiumPiece_rules (metadata : PieceMetadata Rest) :
  (validatePremiumPiece metadata = Normal tt <-> premiumRules metadata) /\
  (~ premiumRules metadata -> throws (validateMetadata metadata)) /\
  (forall folderPath packageJson piece,
      readPackageJson folderPath = Normal packageJson ->
      importPiece folderPath (pkg_name packageJson) (pkg_version packageJson)
        = Normal piece ->
      metadata = assembleMetadata folderPath packageJson piece ->
      ~ premiumRules metadata ->
      loadPieceFromFolder folderPath = None /\
      forall pieces, findAllPieces = Normal pieces ->
        forall listed, In listed pieces -> directoryPath listed <> Some folderPath).
Proof.
  assert (Hiff : validatePremiumPiece metadata = Normal tt <-> premiumRules metadata)
    by apply validatePremiumPiece_Normal.
  assert (Hthrows : ~ premiumRules metadata -> throws (validateMetadata metadata)).
  { intros Hno. unfold validateMetadata.
    destruct (validateSupportedRelease (minimumSupportedRelease metadata)
                (maximumSupportedRelease metadata)) as [[]|m]; simpl;
      [|now exists m].
    destruct (completion_unit_cases (validatePremiumPiece metadata)) as [Hok|Ht];
      [|exact Ht].
    now apply Hiff in Hok. }
  split; [exact Hiff|]. split; [exact Hthrows|].
  intros folderPath packageJson piece Hr Hi -> Hno.
  assert (Hnone : loadPieceFromFolder folderPath = None)
    by (eapply loadPieceFromFolder_throws; eauto).
  split; [exact Hnone|].
  intros pieces Hall. now apply findAllPieces_excludes.
Qed.

End LoaderFacts.

(** *** The loader on the sample [dist] folder *)

Section LoaderExamples.

Import PieceLoader Fixtures.

Lemma asciiLocale_total (a b : string) :
  0 < @localeCompare asciiLocale a b "en" ->
  @localeCompare asciiLocale b a "en" <= 0.
Proof.
  simpl.
  destruct (String_as_OT.compare_spec a b) as [_|_|Hlt]; simpl; try lia.
  intros _. unfold String_as_OT.lt in Hlt. rewrite Hlt. simpl. lia.
Qed.

Lemma asciiLocale_transitive (a b c : string) :
  @localeCompare asciiLocale a b "en" <= 0 ->
  @localeCompare asciiLocale b c "en" <= 0 ->
  @localeCompare asciiLocale a c "en" <= 0.
Proof.
  simpl.
  destruct (String_as_OT.compare_spec a b) as [Hab|Hab|_]; simpl;
    [destruct Hab; tauto | | lia].
  intros _.
  destruct (String_as_OT.compare_spec b c) as [Hbc|Hbc|_]; simpl;
    [destruct Hbc | | lia]; intros _.
  - unfold String_as_OT.lt in Hab. rewrite Hab. simpl. lia.
  - assert (Hac : String_as_OT.lt a c) by (etransitivity; eassumption).
    unfold String_as_OT.lt in Hac. rewrite Hac. simpl. lia.
Qed.

Example findAllPieces_sample :
  option_map (map displayName)
    (match @findAllPieces unit premiumEnum plainSemver asciiLocale sampleHost with
     | Normal pieces => Some pieces
     | Throw _ => None
     end)
  = Some ["airtable"; "NocoDB"; "SSO"].
Proof. reflexivity. Qed.

Lemma findAllPieces_sorted_listing_witness :
  let paths := [nocodbFolder; brokenFolder; airtableFolder; staleFolder;
                ssoFolder; auditFolder; oldPremiumFolder] in
  @findAllDistPaths unit sampleHost = Normal paths /\
  exists pieces,
    @findAllPieces unit premiumEnum plainSemver asciiLocale sampleHost
      = Normal pieces /\
    List.length pieces = 3%nat /\
    StronglySorted
      (fun a b => @localeCompare asciiLocale
                    (@toUpperCase asciiLocale (displayName a))
                    (@toUpperCase asciiLocale (displayName b)) "en" <= 0)
      pieces.
Proof.
  intros paths. split; [reflexivity|].
  destruct (@findAllPieces_sorted_listing unit premiumEnum plainSemver
              asciiLocale sampleHost paths
              asciiLocale_total asciiLocale_transitive eq_refl)
    as (pieces & Hall & _ & Hlen & Hsorted & _).
  exists pieces. split; [exact Hall|]. split; [|exact Hsorted].
  rewrite Hlen. reflexivity.
Defined.

Lemma loadPieceFromFolder_release_bounds_witness :
  let packageJson :=
    {| pkg_name := staleFolder; pkg_version := "0.0.1"; pkg_keywords := [] |} in
  let piece := plainPiece "Stale" None (Some "2.0.0") (Some "1.0.0") in
  @readPackageJson unit sampleHost staleFolder = Normal packageJson /\
  @importPiece unit sampleHost staleFolder staleFolder "0.0.1" = Normal piece /\
  @semver_gt plainSemver "2.0.0" "1.0.0" = Normal true /\
  @loadPieceFromFolder unit premiumEnum plainSemver sampleHost staleFolder = None.
Proof.
  intros packageJson piece.
  split; [reflexivity|]. split; [reflexivity|]. split; [reflexivity|].
  destruct (@loadPieceFromFolder_release_bounds unit premiumEnum plainSemver
              asciiLocale sampleHost staleFolder packageJson piece
              eq_refl eq_refl)
    as (_ & _ & _ & _ & Hbad).
  apply Hbad. right. right. reflexivity.
Defined.

Lemma validatePremiumPiece_rules_witness :
  let packageJson :=
    {| pkg_name := auditFolder; pkg_version := "0.0.1"; pkg_keywords := [] |} in
  let piece := plainPiece "Audit" (Some ["CORE"]) (Some "0.30.0") None in
  let metadata := assembleMetadata auditFolder packageJson piece in
  ~ @premiumRules unit premiumEnum plainSemver metadata /\
  throws (@validateMetadata unit premiumEnum plainSemver metadata) /\
  @loadPieceFromFolder unit premiumEnum plainSemver sampleHost auditFolder = None.
Proof.
  intros packageJson piece metadata.
  assert (Hno : ~ @premiumRules unit premiumEnum plainSemver metadata).
  { intros [Hr _]. specialize (Hr auditFolder eq_refl eq_refl).
    simpl in Hr. destruct Hr as [Hr|[]]. discriminate. }
  destruct (@validatePremiumPiece_rules unit premiumEnum plainSemver
              asciiLocale sampleHost metadata)
    as (_ & Hthrows & Hload).
  split; [exact Hno|]. split; [now apply Hthrows|].
  exact (proj1 (Hload auditFolder packageJson piece eq_refl eq_refl eq_refl Hno)).
Defined.

End LoaderExamples.

(** ** The engine: constants and actions *)

Section ActionFacts.

Import Engine.

Lemma successors_step (a : Action) :
  successors a = match nextAction a with
                 | Some b => b :: successors b
                 | None => []
                 end.
Proof. destruct a as [? ? ? ? []|? ? ? ? ? ?|? ? ? ? ? []|? ? ? ? []]; reflexivity. Qed.

Lemma size_nextAction (a b : Action) :
  nextAction a = Some b -> (size b < size a)%nat.
Proof.
  destruct a as [? ? ? ? next|? ? ? ? ? ?|? ? ? ? first next|? ? ? ? next];
    simpl; try discriminate; intros ->; try destruct first; lia.
Qed.

Lemma successors_smaller (a b : Action) :
  In b (successors a) -> (size b < size a)%nat.
Proof.
  remember (size a) as n eqn:Hn. revert a Hn b.
  induction n as [n IH] using lt_wf_ind. intros a -> b.
  rewrite successors_step.
  destruct (nextAction a) as [c|] eqn:Hc; [|contradiction].
  pose proof (size_nextAction _ _ Hc) as Hlt.
  intros [<-|Hin]; [exact Hlt|].
  specialize (IH (size c) Hlt c eq_refl b Hin). lia.
Qed.

Lemma successors_distinct (a : Action) : NoDup (a :: successors a).
Proof.
  remember (size a) as n eqn:Hn. revert a Hn.
  induction n as [n IH] using lt_wf_ind. intros a ->.
  constructor.
  - intros Hin. apply successors_smaller in Hin. lia.
  - rewrite successors_step.
    destruct (nextAction a) as [c|] eqn:Hc; [|constructor].
    exact (IH (size c) (size_nextAction _ _ Hc) c eq_refl).
Qed.

End ActionFacts.

(** ** The engine: the actions the builders return *)

Section ObjectFacts.

Import ActionObjects.

Lemma In_held (c : Ref) (o : option Ref) : In c (held o) <-> o = Some c.
Proof.
  destruct o as [r|]; simpl; split; try tauto; try discriminate.
  - intros [->|[]]. reflexivity.
  - intros [= ->]. now left.
Qed.

Lemma NoDup_held (o : option Ref) : NoDup (held o).
Proof.
  destruct o as [r|]; simpl; [|constructor].
  constructor; [intros []|constructor].
Qed.

Lemma NoDup_held_apart (a b : option Ref) :
  apart a b -> NoDup (held a ++ held b).
Proof.
  destruct a as [x|], b as [y|]; simpl; intros Hxy;
    try apply (NoDup_held (Some x)); try apply (NoDup_held (Some y));
    try constructor.
  - intros [Heq|[]]. now apply Hxy.
  - apply (NoDup_held (Some y)).
Qed.

Lemma Owns_bound heap parent child :
  Owns heap parent child -> (parent < List.length heap)%nat.
Proof.
  intros (o & Ho & _). apply nth_error_Some. congruence.
Qed.

Lemma Owns_grow heap o parent child :
  Owns (heap ++ [o])%list parent child <->
  Owns heap parent child \/
  (parent = List.length heap /\ In child (references o)).
Proof.
  unfold Owns. split.
  - intros (o' & Ho' & Hin).
    destruct (Nat.lt_ge_cases parent (List.length heap)) as [Hlt|Hge].
    + rewrite nth_error_app1 in Ho' by exact Hlt. left. now exists o'.
    + rewrite nth_error_app2 in Ho' by exact Hge. right.
      destruct (parent - List.length heap)%nat as [|[|k]] eqn:Hk;
        simpl in Ho'; try discriminate.
      injection Ho' as <-. split; [lia | exact Hin].
  - intros [(o' & Ho' & Hin)|[-> Hin]].
    + exists o'. split; [|exact Hin].
      rewrite nth_error_app1; [exact Ho'|].
      apply nth_error_Some. congruence.
    + exists o. split; [|exact Hin].
      now rewrite nth_error_app2, Nat.sub_diag.
Qed.

Lemma allocate_keeps o heap r o' :
  nth_error heap r = Some o' ->
  nth_error (snd (allocate o heap)) r = Some o'.
Proof.
  intros Hr. simpl. rewrite nth_error_app1; [exact Hr|].
  apply nth_error_Some. congruence.
Qed.

Lemma allocate_new o heap :
  nth_error (snd (allocate o heap)) (fst (allocate o heap)) = Some o.
Proof. simpl. now rewrite nth_error_app2, Nat.sub_diag. Qed.

(** A call makes one object, which refers only to objects made before. *)
Lemma Call_allocates heap build :
  Call heap build ->
  exists o,
    build heap = (List.length heap, (heap ++ [o])%list) /\
    forall c, In c (references o) -> (c < List.length heap)%nat.
Proof.
  intros Hcall.
  destruct Hcall as [? ? first Hf|? success failure Hs Hf|? ? ? next Hn
                    |? ? ? ? next ? Hn];
    (eexists; split; [reflexivity|]); unfold references; simpl;
    intros c Hc; rewrite ?app_nil_r in Hc; rewrite ?in_app_iff in Hc;
    rewrite ?In_held in Hc; intuition (subst; auto; try contradiction).
Qed.

Lemma CallOnce_allocates heap build :
  CallOnce heap build ->
  exists o,
    build heap = (List.length heap, (heap ++ [o])%list) /\
    (forall c, In c (references o) ->
               (c < List.length heap)%nat /\ forall parent, ~ Owns heap parent c) /\
    NoDup (references o).
Proof.
  intros Hcall.
  destruct Hcall as [? ? first Hf|? success failure Hs Hf Hsf|? ? ? next Hn
                    |? ? ? ? next ? Hn];
    (eexists; split; [reflexivity|]); unfold references; simpl;
    rewrite ?app_nil_r.
  - split; [|apply NoDup_held].
    intros c Hc. apply In_held in Hc. subst. exact Hf.
  - split; [|now apply NoDup_held_apart].
    intros c Hc. rewrite in_app_iff, !In_held in Hc.
    destruct Hc as [->| ->]; assumption.
  - split; [|apply NoDup_held].
    intros c Hc. apply In_held in Hc. subst. exact Hn.
  - split; [|apply NoDup_held].
    intros c Hc. apply In_held in Hc. subst. exact Hn.
Qed.

Lemma CallOnce_Call heap build : CallOnce heap build -> Call heap build.
Proof.
  assert (Hk : forall o, unowned heap o -> known heap o)
    by (intros [r|]; simpl; tauto).
  destruct 1; constructor; auto.
Qed.

Lemma AssembledOnce_Assembled heap : AssembledOnce heap -> Assembled heap.
Proof.
  induction 1; constructor; auto using CallOnce_Call.
Qed.

(** Every reference points to an object made earlier. *)
Lemma Assembled_backwards heap :
  Assembled heap ->
  forall parent child, Owns heap parent child -> (child < parent)%nat.
Proof.
  induction 1 as [|heap build _ IH Hcall].
  - intros parent child (o & Ho & _). destruct parent; discriminate.
  - destruct (Call_allocates heap build Hcall) as (o & -> & Hrefs).
    cbn [snd]. intros parent child Howns.
    apply Owns_grow in Howns. destruct Howns as [Hold|[-> Hin]].
    + now apply IH.
    + now apply Hrefs.
Qed.

Lemma Reaches_backwards heap :
  (forall parent child, Owns heap parent child -> (child < parent)%nat) ->
  forall parent child, Reaches heap parent child -> (child < parent)%nat.
Proof.
  intros Hback parent child Hreach.
  induction Hreach as [parent child Howns|parent middle child Howns _ IH].
  - now apply Hback.
  - apply Hback in Howns. lia.
Qed.

Lemma Assembled_NoCycles heap : Assembled heap -> NoCycles heap.
Proof.
  intros Hheap r Hr.
  apply (Reaches_backwards heap (Assembled_backwards heap Hheap)) in Hr. lia.
Qed.

Lemma AssembledOnce_NoSharing heap : AssembledOnce heap -> NoSharing heap.
Proof.
  induction 1 as [|heap build _ [IHowner IHfields] Hcall].
  - split.
    + intros parent parent' child (o & Ho & _). destruct parent; discriminate.
    + intros r o Ho. destruct r; discriminate.
  - destruct (CallOnce_allocates heap build Hcall) as (o & -> & Hrefs & Hdup).
    cbn [snd]. split.
    + intros parent parent' child Howns Howns'.
      apply Owns_grow in Howns. apply Owns_grow in Howns'.
      destruct Howns as [Hold|[-> Hin]], Howns' as [Hold'|[-> Hin']].
      * now apply IHowner with child.
      * exfalso. now apply (proj2 (Hrefs child Hin')) with parent.
      * exfalso. now apply (proj2 (Hrefs child Hin)) with parent'.
      * reflexivity.
    + intros r o' Ho'.
      destruct (Nat.lt_ge_cases r (List.length heap)) as [Hlt|Hge].
      * rewrite nth_error_app1 in Ho' by exact Hlt. now apply IHfields with r.
      * rewrite nth_error_app2 in Ho' by exact Hge.
        destruct (r - List.length heap)%nat as [|[|k]]; simpl in Ho';
          try discriminate.
        now injection Ho' as <-.
Qed.

Lemma sharedTwice_Assembled : Assembled sharedTwice.
Proof.
  unfold sharedTwice.
  repeat (apply Assembled_call; [|constructor; simpl; lia || exact I]).
  constructor.
Qed.

Lemma sharedTwice_shares :
  Owns sharedTwice 1%nat 0%nat /\ Owns sharedTwice 2%nat 0%nat.
Proof.
  split; eexists; (split; [reflexivity|]); now left.
Qed.


Lemma chainOfThree_AssembledOnce : AssembledOnce chainOfThree.
Proof.
  assert (Hfree : forall heap r,
             (r < List.length heap)%nat ->
             Forall (fun o => ~ In r (references o)) heap ->
             unowned heap (Some r)).
  { intros heap r Hr Hall. split; [exact Hr|].
    intros parent (o & Ho & Hin). rewrite Forall_forall in Hall.
    exact (Hall o (nth_error_In _ _ Ho) Hin). }
  unfold chainOfThree.
  apply AssembledOnce_call.
  - apply AssembledOnce_call.
    + apply AssembledOnce_call; [constructor|]. constructor. exact I.
    + constructor. apply Hfree; [simpl; lia|].
      repeat constructor. intros [].
  - constructor. apply Hfree; [simpl; lia|].
    repeat constructor; simpl; intuition discriminate.
Qed.


End ObjectFacts.


(** ** The engine: the variable resolver *)

Section ResolverFacts.

Import Engine.

Context `{Host}.
Variable constants : EngineConstants.

Lemma JsonValue_nested_ind (P : JsonValue -> Prop) :
  P JNull ->
  (forall b, P (JBool b)) ->
  (forall n, P (JNumber n)) ->
  (forall s, P (JString s)) ->
  (forall elements, Forall P elements -> P (JArray elements)) ->
  (forall fields, Forall (fun field => P (snd field)) fields -> P (JObject fields)) ->
  forall v, P v.
Proof.
  intros Hnull Hbool Hnum Hstr Harr Hobj.
  fix IH 1. intros [|b|n|s|elements|fields].
  - exact Hnull.
  - apply Hbool.
  - apply Hnum.
  - apply Hstr.
  - apply Harr. induction elements as [|x l IHl]; constructor; [apply IH | exact IHl].
  - apply Hobj. induction fields as [|[k x] l IHl]; constructor; [apply IH | exact IHl].
Qed.

Lemma mapResolved_error {A B} (f : A -> Resolved B) (l : list A) kind detail :
  mapResolved f l = Err kind detail ->
  exists x, In x l /\ f x = Err kind detail.
Proof.
  induction l as [|x l IH]; simpl; [discriminate|].
  destruct (f x) as [y|k d] eqn:Ex; simpl.
  - destruct (mapResolved f l) as [ys|k d] eqn:El; simpl; [discriminate|].
    intros [= -> ->]. destruct (IH eq_refl) as (x' & Hin & Hx'). eauto.
  - intros [= -> ->]. eauto.
Qed.

Lemma mapResolved_fails {A B} (f : A -> Resolved B) (l : list A) (x : A) :
  In x l -> (exists kind detail, f x = Err kind detail) ->
  exists kind detail, mapResolved f l = Err kind detail.
Proof.
  induction l as [|a l IH]; simpl; [contradiction|].
  intros [->|Hin] Hx.
  - destruct Hx as (k & d & ->). simpl. eauto.
  - destruct (f a) as [y|k d]; simpl; [|eauto].
    destruct (IH Hin Hx) as (k & d & ->). simpl. eauto.
Qed.

Lemma some_exists {A} (P : A -> Prop) (l : list A) :
  some P l <-> exists x, In x l /\ P x.
Proof.
  induction l as [|a l IH]; simpl.
  - split; [contradiction | now intros (x & [] & _)].
  - rewrite IH. split.
    + intros [Ha|(x & Hin & Hx)]; eauto.
    + intros (x & [->|Hin] & Hx); eauto.
Qed.

Lemma resolveReference_kind ctx r kind detail :
  resolveReference constants ctx r = Err kind detail -> kind = ResolutionError.
Proof.
  destruct r as [stepName path|path| | |]; simpl.
  - destruct (assoc stepName (steps ctx)) as [o|]; [|congruence].
    destruct (getPath (output o) path); congruence.
  - destruct (loopScope ctx) as [[item index]|]; [|congruence].
    destruct (getPath item path); congruence.
  - destruct (loopScope ctx) as [[item index]|]; congruence.
  - discriminate.
  - discriminate.
Qed.

Lemma resolveTemplate_kind ctx template kind detail :
  resolveTemplate constants ctx template = Err kind detail ->
  kind = ResolutionError.
Proof.
  unfold resolveTemplate, resolveSegments.
  destruct (mapResolved (resolveSegment constants ctx) (tokenize template))
    as [vs|k d] eqn:E; simpl.
  - destruct (tokenize template) as [|[text|r] [|? ?]];
      destruct vs as [|v [|? ?]]; discriminate.
  - intros [= -> ->]. apply mapResolved_error in E.
    destruct E as ([text|r] & _ & Hs); simpl in Hs; [discriminate|].
    eapply resolveReference_kind; eassumption.
Qed.

Lemma resolveTemplate_absent ctx template stepName path :
  In (Token (StepRef stepName path)) (tokenize template) ->
  assoc stepName (steps ctx) = None ->
  exists kind detail, resolveTemplate constants ctx template = Err kind detail.
Proof.
  intros Hin Habsent. unfold resolveTemplate, resolveSegments.
  destruct (mapResolved_fails (resolveSegment constants ctx) _ _ Hin)
    as (k & d & ->).
  - simpl. rewrite Habsent. eauto.
  - simpl. eauto.
Qed.

(** Every failure of the resolver is a [ResolutionError], and a reference
    to an action without an entry makes it fail. *)
Lemma resolveValue_absent ctx stepName path :
  assoc stepName (steps ctx) = None ->
  forall v,
    (forall kind detail,
        resolveValue constants ctx v = Err kind detail -> kind = ResolutionError) /\
    (mentions (StepRef stepName path) v ->
     exists kind detail, resolveValue constants ctx v = Err kind detail).
Proof.
  intros Habsent.
  induction v as [|b|n|s|elements IH|fields IH] using JsonValue_nested_ind;
    simpl; try (split; [discriminate | contradiction]).
  - split; [apply resolveTemplate_kind|].
    intros Hin. eapply resolveTemplate_absent; eassumption.
  - rewrite Forall_forall in IH. split.
    + intros kind detail.
      destruct (mapResolved (resolveValue constants ctx) elements)
        as [r|k d] eqn:E; simpl; [discriminate|].
      intros [= -> ->]. apply mapResolved_error in E.
      destruct E as (x & Hin & Hx). exact (proj1 (IH x Hin) _ _ Hx).
    + rewrite some_exists. intros (x & Hin & Hx).
      destruct (mapResolved_fails (resolveValue constants ctx) _ _ Hin
                  (proj2 (IH x Hin) Hx)) as (k & d & ->).
      simpl. eauto.
  - rewrite Forall_forall in IH. split.
    + intros kind detail.
      match goal with
      | |- andThen (mapResolved ?f fields) _ = _ -> _ =>
          destruct (mapResolved f fields) as [r|k d] eqn:E; simpl;
            [discriminate|]
      end.
      intros [= -> ->]. apply mapResolved_error in E.
      destruct E as ([key x] & Hin & Hx).
      destruct (resolveValue constants ctx x) as [x'|k d] eqn:Ex; simpl in Hx;
        [discriminate|].
      injection Hx as -> ->. exact (proj1 (IH _ Hin) _ _ Ex).
    + rewrite some_exists. intros ([key x] & Hin & Hx).
      match goal with
      | |- exists _ _, andThen (mapResolved ?f fields) _ = _ =>
          destruct (mapResolved_fails f _ _ Hin) as (k & d & ->)
      end.
      * destruct (proj2 (IH _ Hin) Hx) as (k & d & Hf). simpl in Hf.
        rewrite Hf. simpl. eauto.
      * simpl. eauto.
Qed.

(** C3: when a template of the input refers to an action that has no entry
    in the Run Context, resolution fails, and the failure is a
    [ResolutionError]: no value is substituted. *)
Theorem resolveValue_absent_action (ctx : RunContext) (input : JsonValue)
    (stepName : string) (path : list string)
    (referred : mentions (StepRef stepName path) input)
    (absent : assoc stepName (steps ctx) = None) :
  (exists detail, resolveValue constants ctx input = Err ResolutionError detail) /\
  (forall value, resolveValue constants ctx input <> Ok value) /\
  (forall template,
      In (Token (StepRef stepName path)) (tokenize template) ->
      exists detail,
        resolveTemplate constants ctx template = Err ResolutionError detail).
Proof.
  destruct (resolveValue_absent ctx stepName path absent input) as [Hkind Hfail].
  destruct (Hfail referred) as (kind & detail & Herr).
  pose proof (Hkind _ _ Herr) as ->.
  split; [eauto|]. split; [congruence|].
  intros template Hin.
  destruct (resolveTemplate_absent ctx template stepName path Hin absent)
    as (k & d & Ht).
  pose proof (resolveTemplate_kind _ _ _ _ Ht) as ->. eauto.
Qed.

End ResolverFacts.

Section ResolverExamples.

Import Engine Fixtures.

Lemma resolveValue_absent_action_witness :
  let input := JObject [("to", JString "ops"); ("body", JString "{{echo_step}}")] in
  mentions (H := echoHost) (StepRef "echo_step" []) input /\
  assoc "echo_step" (steps emptyContext) = None /\
  exists detail,
    resolveValue (H := echoHost) (generateMockEngineConstants None)
      emptyContext input = Err ResolutionError detail.
Proof.
  intros input.
  assert (Hm : mentions (H := echoHost) (StepRef "echo_step" []) input)
    by (simpl; auto).
  split; [exact Hm|]. split; [reflexivity|].
  exact (proj1 (resolveValue_absent_action (H := echoHost)
                  (generateMockEngineConstants None) emptyContext input
                  "echo_step" [] Hm eq_refl)).
Defined.

End ResolverExamples.

(** ** The engine: the interpreter *)

Section InterpreterFacts.

Import Engine.

Context `{Host}.
Variable constants : EngineConstants.

Abbreviation run := (executeAction constants).
Abbreviation runChain := (executeChain constants).

(** The interpreter, one action kind at a time. *)
Lemma executeAction_code st name display valid settings next :
  run st (CodeAction name display valid settings next)
  = if negb valid then invalid st name
    else let (r, new) := codeExecutor constants (context st) name settings in
         settle st name (code_errorHandlingOptions settings) r new (runChain next).
Proof. reflexivity. Qed.

Lemma executeAction_piece st name display valid settings next :
  run st (PieceAction name display valid settings next)
  = if negb valid then invalid st name
    else let (r, new) := pieceExecutor constants (context st) name settings in
         settle st name (piece_errorHandlingOptions settings) r new (runChain next).
Proof. reflexivity. Qed.

Lemma executeAction_branch st name display valid settings success failure :
  run st (BranchAction name display valid settings success failure)
  = if negb valid then invalid st name
    else match evaluateConditions constants (context st) (conditions settings) with
         | Err kind detail => settle st name None (Errored kind detail) [] finish
         | Ok v =>
             settle st name None (Produced (JObject [("condition", JBool v)])) []
               (runChain (if v then success else failure))
         end.
Proof. reflexivity. Qed.

Lemma executeAction_loop st name display valid settings first next :
  run st (LoopOnItemsAction name display valid settings first next)
  = if negb valid then invalid st name
    else match resolveItems constants (context st) (items settings) with
         | Err kind detail =>
             settle st name None (Errored kind detail) [] (runChain next)
         | Ok elements =>
             match iterate (runChain first) (context st) elements 0
                     (events st) [] with
             | LoopDone iterations evs =>
                 settle {| context := context st; events := evs |} name None
                   (Produced (loopOutput iterations)) [] (runChain next)
             | LoopStopped iterations r =>
                 {| outcome := outcome r;
                    finalContext :=
                      match outcome r with
                      | PAUSED _ _ => context st
                      | _ => record (context st) name
                               {| status := STEP_FAILED;
                                  output := loopOutput iterations |}
                      end;
                    trace := trace r |}
             end
         end.
Proof. reflexivity. Qed.

(** *** Branches *)

Lemma evaluateGroup_and ctx (f : BranchCondition -> bool) group :
  (forall c, In c group -> evaluateCondition constants ctx c = Ok (f c)) ->
  evaluateGroup constants ctx group = Ok (forallb f group).
Proof.
  induction group as [|c group IH]; simpl; intros Hf; [reflexivity|].
  rewrite (Hf c (or_introl eq_refl)). simpl.
  destruct (f c); simpl; [|reflexivity].
  apply IH. intros c' Hc'. apply Hf. now right.
Qed.

Lemma evaluateConditions_or ctx (f : BranchCondition -> bool) groups :
  (forall group c, In group groups -> In c group ->
                   evaluateCondition constants ctx c = Ok (f c)) ->
  evaluateConditions constants ctx groups = Ok (existsb (forallb f) groups).
Proof.
  induction groups as [|g groups IH]; simpl; intros Hf; [reflexivity|].
  rewrite (evaluateGroup_and ctx f g) by (intros c Hc; apply (Hf g); auto).
  simpl. destruct (forallb f g); simpl; [reflexivity|].
  apply IH. intros g' c Hg' Hc. apply (Hf g'); auto.
Qed.

Lemma evaluateConditions_single ctx group v :
  evaluateGroup constants ctx group = Ok v ->
  evaluateConditions constants ctx [group] = Ok v.
Proof. simpl. intros ->. now destruct v. Qed.


(** *** Loops *)

(** Events only accumulate: a run that starts after some events is the run
    that starts after none, with those events first. *)
Lemma after_after before between r :
  after before (after between r) = after (before ++ between) r.
Proof. unfold after. simpl. now rewrite app_assoc. Qed.

Lemma after_nil r : after [] r = r.
Proof. now destruct r. Qed.

Lemma finish_framed : framed finish.
Proof. intros st. unfold finish, after. simpl. now rewrite app_nil_r. Qed.

Lemma settle_framed name o r new k :
  framed k -> framed (fun st => settle st name o r new k).
Proof.
  intros Hk st. unfold settle. cbn [context events app].
  destruct r as [out|kind detail|key].
  - rewrite Hk. rewrite (Hk {| context := _; events := new |}).
    cbn [context events]. now rewrite after_after.
  - destruct (continueEnabled o); [|reflexivity].
    rewrite Hk. rewrite (Hk {| context := _; events := new |}).
    cbn [context events]. now rewrite after_after.
  - reflexivity.
Qed.

Lemma iterate_framed body ctx :
  framed body ->
  forall elements index evs done,
    iterate body ctx elements index evs done
    = match iterate body ctx elements index [] done with
      | LoopDone iterations evs' => LoopDone iterations (evs ++ evs')
      | LoopStopped iterations r => LoopStopped iterations (after evs r)
      end.
Proof.
  intros Hbody. induction elements as [|item elements IH]; intros index evs done.
  - simpl. now rewrite app_nil_r.
  - cbn [iterate]. rewrite (Hbody {| context := _; events := evs |}).
    cbn [context events].
    set (r := body {| context := {| steps := steps ctx;
                                    loopScope := Some (item, index) |};
                      events := [] |}).
    cbn [after outcome finalContext trace].
    destruct (outcome r) eqn:Hout.
    + rewrite IH. rewrite (IH _ (trace r)).
      destruct (iterate body ctx elements (S index) [] _);
        [now rewrite app_assoc | now rewrite after_after].
    + reflexivity.
    + reflexivity.
Qed.

Lemma executeAction_framed (a : Action) : framed (fun st => run st a).
Proof.
  remember (size a) as n eqn:Hn. revert a Hn.
  induction n as [n IH] using lt_wf_ind. intros a ->.
  assert (Hchain : forall o,
             (match o with Some b => size b | None => 0 end < size a)%nat ->
             framed (runChain o)).
  { intros [b|] Hlt; [|exact finish_framed].
    exact (IH (size b) Hlt b eq_refl). }
  destruct a as [name display valid settings next
                |name display valid settings success failure
                |name display valid settings first next
                |name display valid settings next]; intros st.
  - rewrite !executeAction_code. cbn [context].
    destruct valid; cbn [negb];
      [|unfold invalid, after; simpl; now rewrite app_nil_r].
    destruct (codeExecutor constants (context st) name settings) as [r new].
    apply (settle_framed name _ r new (runChain next)).
    apply Hchain. simpl. lia.
  - rewrite !executeAction_branch. cbn [context].
    destruct valid; cbn [negb];
      [|unfold invalid, after; simpl; now rewrite app_nil_r].
    destruct (evaluateConditions constants (context st) (conditions settings))
      as [v|kind detail].
    + apply (settle_framed name None _ [] (runChain (if v then success else failure))).
      apply Hchain. destruct v, success, failure; simpl; lia.
    + apply (settle_framed name None _ [] finish). exact finish_framed.
  - rewrite !executeAction_loop. cbn [context events].
    destruct valid; cbn [negb];
      [|unfold invalid, after; simpl; now rewrite app_nil_r].
    assert (Hnext : framed (runChain next))
      by (apply Hchain; destruct first; simpl; lia).
    destruct (resolveItems constants (context st) (items settings))
      as [elements|kind detail].
    + rewrite (iterate_framed (runChain first) (context st))
        by (apply Hchain; destruct next; simpl; lia).
      destruct (iterate (runChain first) (context st) elements 0 [] [])
        as [iterations evs|iterations r].
      * unfold settle. cbn [context events].
        rewrite !app_nil_r. rewrite Hnext.
        rewrite (Hnext {| context := _; events := evs |}).
        cbn [context events]. now rewrite after_after.
      * reflexivity.
    + apply (settle_framed name None _ [] (runChain next)). exact Hnext.
  - rewrite !executeAction_piece. cbn [context].
    destruct valid; cbn [negb];
      [|unfold invalid, after; simpl; now rewrite app_nil_r].
    destruct (pieceExecutor constants (context st) name settings) as [r new].
    apply (settle_framed name _ r new (runChain next)).
    apply Hchain. simpl. lia.
Qed.

Lemma executeChain_framed (o : option Action) : framed (runChain o).
Proof.
  destruct o as [a|]; [exact (executeAction_framed a) | exact finish_framed].
Qed.

(** [iterate] against the spec's words: while the runs succeed, one
    iteration per run, with its output and its events. *)
Lemma iterate_oncePerItem first ctx :
  forall elements index evs done,
    let runs := oncePerItem constants first ctx elements index in
    Forall (fun r => outcome r = SUCCEEDED) runs ->
    iterate (runChain first) ctx elements index evs done
    = LoopDone
        (done ++ map (fun r => iterationOutput ctx (finalContext r)) runs)
        (evs ++ List.concat (map trace runs)).
Proof.
  induction elements as [|item elements IH]; intros index evs done runs Hruns.
  - simpl. now rewrite !app_nil_r.
  - cbn [oncePerItem] in runs. unfold runs in *. clear runs.
    inversion Hruns as [|r runs' Hr Hrest]; subst.
    cbn [iterate]. rewrite (executeChain_framed first {| context := _; events := evs |}).
    cbn [context events after outcome finalContext trace].
    fold (iterationState ctx item index). rewrite Hr.
    rewrite (IH (S index) _ _ Hrest).
    cbn [map List.concat]. now rewrite <- !app_assoc.
Qed.

(** The first run that does not succeed ends the loop: no later item is
    run. *)
Lemma iterate_stops first ctx :
  forall good elements index evs done bad rest,
    oncePerItem constants first ctx elements index = (good ++ bad :: rest)%list ->
    Forall (fun r => outcome r = SUCCEEDED) good ->
    outcome bad <> SUCCEEDED ->
    iterate (runChain first) ctx elements index evs done
    = LoopStopped
        (done ++ map (fun r => iterationOutput ctx (finalContext r)) good)
        (after (evs ++ List.concat (map trace good)) bad).
Proof.
  induction good as [|r good IH];
    intros elements index evs done bad rest Hruns Hgood Hbad;
    destruct elements as [|item elements]; try discriminate;
    cbn [oncePerItem app] in Hruns; injection Hruns as Hhead Htail;
    cbn [iterate];
    rewrite (executeChain_framed first {| context := _; events := evs |});
    cbn [context events after outcome finalContext trace];
    fold (iterationState ctx item index); rewrite Hhead.
  - simpl. rewrite !app_nil_r.
    destruct (outcome bad) eqn:Hout; [congruence| |]; reflexivity.
  - inversion Hgood as [|? ? Hr Hgood']; subst. rewrite Hr.
    rewrite (IH _ _ _ _ _ _ Htail Hgood' Hbad).
    cbn [map List.concat]. now rewrite <- !app_assoc.
Qed.

Lemma oncePerItem_nth first ctx :
  forall elements index k item,
    nth_error elements k = Some item ->
    nth_error (oncePerItem constants first ctx elements index) k
    = Some (runChain first (iterationState ctx item (index + k))).
Proof.
  induction elements as [|e elements IH]; intros index [|k] item; simpl;
    try discriminate.
  - intros [= ->]. now rewrite Nat.add_0_r.
  - intros Hk. rewrite (IH (S index) k item Hk). simpl.
    now rewrite Nat.add_succ_r.
Qed.

Lemma oncePerItem_length first ctx :
  forall elements index,
    List.length (oncePerItem constants first ctx elements index)
    = List.length elements.
Proof. induction elements; simpl; intros; [reflexivity | now rewrite IHelements]. Qed.


(** *** Chains of code actions *)

Lemma runsClean_chain (a : Action) (st : ExecState) :
  runsClean constants (context st) (a :: successors a) ->
  outcome (run st a) = SUCCEEDED /\
  exists new,
    steps (finalContext (run st a)) = (steps (context st) ++ new)%list /\
    map fst new = map name (a :: successors a) /\
    Forall (fun entry => status (snd entry) = STEP_SUCCEEDED) new.
Proof.
  remember (size a) as n eqn:Hn. revert a Hn st.
  induction n as [n IH] using lt_wf_ind. intros a -> st.
  rewrite successors_step. intros Hclean.
  destruct a as [name display valid settings next| | |];
    cbn [runsClean] in Hclean; try contradiction.
  destruct Hclean as (-> & out & evs & Hexec & Hrest).
  cbn [nextAction] in *.
  rewrite executeAction_code. cbn [negb]. rewrite Hexec. unfold settle.
  destruct next as [b|]; cbn [executeChain].
  - destruct (IH (size b) (Nat.lt_succ_diag_r _) b eq_refl
                {| context := record (context st) name
                                {| status := STEP_SUCCEEDED; output := out |};
                   events := (events st ++ evs)%list |} Hrest)
      as (Hout & new & Hsteps & Hnames & Hstatus).
    split; [exact Hout|].
    exists ((name, {| status := STEP_SUCCEEDED; output := out |}) :: new).
    split; [|split].
    + rewrite Hsteps. simpl. now rewrite <- app_assoc.
    + simpl. now rewrite Hnames.
    + now constructor.
  - split; [reflexivity|].
    exists [(name, {| status := STEP_SUCCEEDED; output := out |})].
    repeat split. now constructor.
Qed.


(** *** Retries *)

Lemma attemptLoop_last rc name once attempt :
  attemptLoop rc name once 1 attempt
  = (exhausted (once attempt), [Invoked name attempt]).
Proof. reflexivity. Qed.

Lemma attemptLoop_more rc name once remaining attempt :
  attemptLoop rc name once (S (S remaining)) attempt
  = match once attempt with
    | Errored ExecutorError _ =>
        let (r, events) := attemptLoop rc name once (S remaining) (S attempt) in
        (r, Invoked name attempt :: Waited (backoff rc attempt) :: events)
    | r => (r, [Invoked name attempt])
    end.
Proof. reflexivity. Qed.

(** The attempts of the retry loop: attempts [attempt] to
    [attempt + n - 1] are made, at most [remaining] of them, each after the
    failure of the one before and the wait that belongs to it; the last
    one is the first that does not fail, or the last one allowed. *)
Lemma attemptLoop_spec rc name (once : nat -> StepResult) :
  forall remaining attempt,
  exists n r evs,
    attemptLoop rc name once remaining attempt = (r, evs) /\
    attemptsOf evs = map (pair name) (seq attempt n) /\
    delaysOf evs = map (backoff rc) (seq attempt (n - 1)) /\
    (n <= remaining)%nat /\
    ((1 <= remaining)%nat -> (1 <= n)%nat) /\
    (forall k, (attempt <= k < attempt + (n - 1))%nat -> failsAt once k) /\
    (n = 0%nat -> r = Errored Timeout "retry policy exhausted") /\
    ((1 <= n)%nat ->
     (n = remaining /\ r = exhausted (once (attempt + (n - 1))%nat)) \/
     (r = once (attempt + (n - 1))%nat /\
      ~ failsAt once (attempt + (n - 1)))).
Proof.
  assert (Hone : forall remaining attempt r,
             (1 <= remaining)%nat ->
             (1%nat = remaining /\ r = exhausted (once attempt)) \/
             (r = once attempt /\ ~ failsAt once attempt) ->
             exists n r' evs,
               (r, [Invoked name attempt]) = (r', evs) /\
               attemptsOf evs = map (pair name) (seq attempt n) /\
               delaysOf evs = map (backoff rc) (seq attempt (n - 1)) /\
               (n <= remaining)%nat /\
               ((1 <= remaining)%nat -> (1 <= n)%nat) /\
               (forall k, (attempt <= k < attempt + (n - 1))%nat ->
                          failsAt once k) /\
               (n = 0%nat -> r' = Errored Timeout "retry policy exhausted") /\
               ((1 <= n)%nat ->
                (n = remaining /\
                 r' = exhausted (once (attempt + (n - 1))%nat)) \/
                (r' = once (attempt + (n - 1))%nat /\
                 ~ failsAt once (attempt + (n - 1))))).
  { intros remaining attempt r Hrem Hlast.
    exists 1%nat, r, [Invoked name attempt].
    split; [reflexivity|]. split; [reflexivity|]. split; [reflexivity|].
    split; [exact Hrem|]. split; [auto|].
    split; [intros k Hk; simpl in Hk; lia|].
    split; [discriminate|]. intros _. simpl. now rewrite Nat.add_0_r. }
  induction remaining as [|remaining IH]; intros attempt.
  - exists 0%nat, (Errored Timeout "retry policy exhausted"), [].
    repeat split; auto; try lia; intros k Hk; simpl in Hk; lia.
  - destruct remaining as [|remaining].
    + rewrite attemptLoop_last. apply Hone; [lia|]. now left.
    + rewrite attemptLoop_more.
      assert (Hstop : forall r, r = once attempt -> ~ failsAt once attempt ->
                 exists n r' evs,
                   (r, [Invoked name attempt]) = (r', evs) /\
                   attemptsOf evs = map (pair name) (seq attempt n) /\
                   delaysOf evs = map (backoff rc) (seq attempt (n - 1)) /\
                   (n <= S (S remaining))%nat /\
                   ((1 <= S (S remaining))%nat -> (1 <= n)%nat) /\
                   (forall k, (attempt <= k < attempt + (n - 1))%nat ->
                              failsAt once k) /\
                   (n = 0%nat -> r' = Errored Timeout "retry policy exhausted") /\
                   ((1 <= n)%nat ->
                    (n = S (S remaining) /\
                     r' = exhausted (once (attempt + (n - 1))%nat)) \/
                    (r' = once (attempt + (n - 1))%nat /\
                     ~ failsAt once (attempt + (n - 1))))).
      { intros r Hr Hnot. apply Hone; [lia|]. now right. }
      destruct (once attempt) as [out|kind detail|key] eqn:Honce;
        [apply Hstop; [reflexivity|intros [d Hd]; congruence]
        | |apply Hstop; [reflexivity|intros [d Hd]; congruence]].
      destruct kind;
        try (apply Hstop; [reflexivity|intros [d Hd]; congruence]).
      destruct (IH (S attempt))
        as (n & r & evs & -> & Ha & Hw & Hle & Hpos & Hfail & _ & Hlast).
      assert (Hn : (1 <= n)%nat) by (apply Hpos; lia).
      exists (S n), r,
        (Invoked name attempt :: Waited (backoff rc attempt) :: evs).
      split; [reflexivity|].
      split; [simpl; now rewrite Ha|].
      split.
      { simpl. rewrite Hw, Nat.sub_0_r.
        destruct n as [|n]; [lia|]. simpl. now rewrite Nat.sub_0_r. }
      split; [lia|]. split; [lia|].
      split.
      { intros k Hk. destruct (Nat.eq_dec k attempt) as [->|Hne].
        - now exists detail.
        - apply Hfail. simpl in Hk. lia. }
      split; [discriminate|]. intros _.
      replace (attempt + (S n - 1))%nat with (S attempt + (n - 1))%nat by lia.
      destruct (Hlast Hn) as [[-> Hr]|Hr]; [left|right]; auto.
Qed.

Lemma backoff_first rc : backoff rc 1 = retryInterval rc.
Proof. unfold backoff. simpl. lia. Qed.

Lemma backoff_second rc :
  backoff rc 2 = retryInterval rc * retryExponential rc.
Proof. unfold backoff. simpl. f_equal. lia. Qed.

Lemma backoff_grows rc (attempt : nat) :
  0 <= retryInterval rc -> 1 <= retryExponential rc -> (1 <= attempt)%nat ->
  backoff rc attempt <= backoff rc (S attempt).
Proof.
  intros Hi He Ha. unfold backoff.
  replace (Z.of_nat (S attempt) - 1) with (Z.succ (Z.of_nat attempt - 1)) by lia.
  rewrite Z.pow_succ_r by lia.
  assert (0 <= retryExponential rc ^ (Z.of_nat attempt - 1))
    by (apply Z.pow_nonneg; lia).
  nia.
Qed.

Lemma backoff_sorted rc :
  0 <= retryInterval rc -> 1 <= retryExponential rc ->
  forall count first, (1 <= first)%nat ->
                      Sorted Z.le (map (backoff rc) (seq first count)).
Proof.
  intros Hi He. induction count as [|count IH]; intros first Hfirst; simpl.
  - constructor.
  - constructor; [apply IH; lia|].
    destruct count; simpl; constructor. now apply backoff_grows.
Qed.

(** What running a code or piece action comes to, given the result of its
    executor. *)
Lemma executeAction_retried st a r evs :
  valid a = true ->
  match a with
  | CodeAction name _ _ settings _ =>
      codeExecutor constants (context st) name settings = (r, evs)
  | PieceAction name _ _ settings _ =>
      pieceExecutor constants (context st) name settings = (r, evs)
  | _ => False
  end ->
  run st a = settle st (name a) (errorHandlingOptions a) r evs
               (runChain (nextAction a)).
Proof.
  intros Hvalid Hexec.
  destruct a as [n d v s next| |n d v s f next|n d v s next];
    try contradiction; cbn [valid] in Hvalid; subst v;
    cbn [name errorHandlingOptions nextAction].
  - rewrite executeAction_code. cbn [negb]. now rewrite Hexec.
  - rewrite executeAction_piece. cbn [negb]. now rewrite Hexec.
Qed.

Lemma executeAction_invalid st a :
  valid a = false -> run st a = invalid st (name a).
Proof.
  destruct a; cbn [valid name]; intros ->;
    [rewrite executeAction_code|rewrite executeAction_branch
    |rewrite executeAction_loop|rewrite executeAction_piece]; reflexivity.
Qed.

(** The executor of an action that retries on failure: the retry loop on
    its attempts when the input resolves, and no event otherwise. *)
Lemma executor_retries st a :
  retryEnabled (errorHandlingOptions a) = true ->
  exists r evs,
    match a with
    | CodeAction name _ _ settings _ =>
        codeExecutor constants (context st) name settings = (r, evs)
    | PieceAction name _ _ settings _ =>
        pieceExecutor constants (context st) name settings = (r, evs)
    | _ => False
    end /\
    match attemptOf constants (context st) a with
    | Some once =>
        attemptLoop (retryConstants constants) (name a) once
          (Z.to_nat (maxAttempts (retryConstants constants))) 1 = (r, evs)
    | None => evs = [] /\ exists kind detail, r = Errored kind detail
    end.
Proof.
  destruct a as [n d v s next| |n d v s f next|n d v s next];
    cbn [errorHandlingOptions attemptOf name]; try discriminate; intros Hretry.
  - unfold codeExecutor, runWithRetry. rewrite Hretry.
    destruct (resolveValue constants (context st) (JObject (code_input s)))
      as [input|kind detail].
    + destruct (attemptLoop _ _ _ _ _) as [r evs]. now exists r, evs.
    + exists (Errored kind detail), []. repeat split. now exists kind, detail.
  - unfold pieceExecutor, runWithRetry. rewrite Hretry.
    destruct (resolveValue constants (context st) (JObject (piece_input s)))
      as [input|kind detail].
    + destruct (attemptLoop _ _ _ _ _) as [r evs]. now exists r, evs.
    + exists (Errored kind detail), []. repeat split. now exists kind, detail.
Qed.


End InterpreterFacts.

(** *** The interpreter on concrete flows *)

Section InterpreterExamples.

Import Engine Fixtures.

Let start : ExecState := {| context := emptyContext; events := [] |}.
Let defaults : EngineConstants := generateMockEngineConstants None.

Example executeFlow_two_steps :
  let flow :=
    buildCodeAction "echo_step" [("key", JString "value")] None
      (Some (buildCodeAction "runtime" [("from", JString "{{echo_step}}")]
               None None)) in
  let r := executeFlow (H := echoHost) defaults flow emptyContext in
  outcome r = SUCCEEDED /\
  map fst (steps (finalContext r)) = ["echo_step"; "runtime"] /\
  assoc "runtime" (steps (finalContext r))
  = Some {| status := STEP_SUCCEEDED;
            output := JObject [("from", JObject [("key", JString "value")])] |}.
Proof. repeat split. Qed.






End InterpreterExamples.

(** ** Piece folders on disk *)

Section FolderFacts.

Import PieceLoader PieceFolders.

Context `{FileSystem}.

Lemma Node_nested_ind (P : Node -> Prop) :
  P File ->
  P Unreadable ->
  P Unlistable ->
  (forall files, Forall (fun entry => P (snd entry)) files -> P (Directory files)) ->
  forall node, P node.
Proof.
  intros Hfile Hunreadable Hunlistable Hdir.
  fix IH 1. intros [| | |files].
  - exact Hfile.
  - exact Hunreadable.
  - exact Hunlistable.
  - apply Hdir.
    induction files as [|[file child] files IHfiles]; constructor;
      [apply IH | exact IHfiles].
Qed.

Lemma gather_ext {A} (f g : A -> Completion (list string)) (l : list A) :
  (forall x, In x l -> f x = g x) -> gather f l = gather g l.
Proof.
  induction l as [|x l IH]; simpl; intros Hfg; [reflexivity|].
  rewrite (Hfg x (or_introl eq_refl)), IH; [reflexivity|].
  intros y Hy. apply Hfg. now right.
Qed.

Lemma gather_Normal {A} (visit : A -> Completion (list string)) (l : list A)
    (out : list string) :
  gather visit l = Normal out ->
  (forall x, In x l -> exists found, visit x = Normal found) /\
  (forall q, In q out <->
             exists x found, In x l /\ visit x = Normal found /\ In q found).
Proof.
  revert out. induction l as [|x l IH]; simpl; intros out.
  - intros [= <-]. split; [contradiction|].
    intros q. split; [contradiction | now intros (? & ? & [] & _)].
  - destruct (visit x) as [found|] eqn:Ex; simpl; [|discriminate].
    destruct (gather visit l) as [rest|] eqn:El; simpl; [|discriminate].
    intros [= <-]. destruct (IH rest eq_refl) as [Heach Hin]. split.
    + intros y [<-|Hy]; [eauto | now apply Heach].
    + intros q. rewrite in_app_iff, Hin. split.
      * intros [Hq|(y & o & Hy & Ho & Hq)]; [exists x, found; auto|].
        exists y, o. auto.
      * intros (y & o & [<-|Hy] & Ho & Hq).
        -- left. congruence.
        -- right. eauto.
Qed.

Lemma gather_throws {A} (visit : A -> Completion (list string)) (l : list A) :
  throws (gather visit l) <-> exists x, In x l /\ throws (visit x).
Proof.
  induction l as [|x l IH]; simpl.
  - split; [intros [m Hm]; discriminate | now intros (? & [] & _)].
  - destruct (visit x) as [found|m] eqn:Ex; simpl.
    + destruct (gather visit l) as [rest|m] eqn:El; simpl.
      * split; [intros [m Hm]; discriminate|].
        intros (y & [<-|Hy] & [m Hm]); [congruence|].
        destruct (proj2 IH) as [m' Hm'];
          [exists y; split; [exact Hy | now exists m] | discriminate].
      * split; [|intros _; now exists m].
        intros _. destruct (proj1 IH) as (y & Hy & Ht); [now exists m|].
        exists y. auto.
    + split; [|intros _; now exists m].
      intros _. exists x. split; [now left | now exists m].
Qed.

Lemma Reaches_directory skipped path node target found :
  Reaches skipped path node target found -> isDirectory node = true.
Proof. now destruct 1. Qed.

Lemma Reaches_weaken (strict loose : string -> bool) path node target found :
  (forall file, loose file = true -> strict file = true) ->
  Reaches strict path node target found ->
  Reaches loose path node target found.
Proof.
  intros Hsub. induction 1 as [|path files file child target found Hin Hskip _ IH].
  - constructor.
  - apply Reaches_down with file child; [exact Hin| |exact IH].
    destruct (loose file) eqn:E; [|reflexivity].
    apply Hsub in E. congruence.
Qed.

Lemma Refuses_weaken (strict loose : string -> bool) path node target :
  (forall file, loose file = true -> strict file = true) ->
  Refuses strict path node target ->
  Refuses loose path node target.
Proof.
  intros Hsub. induction 1 as [|path files file child target Hin Hskip _ IH].
  - constructor.
  - apply Refuses_down with file child; [exact Hin| |exact IH].
    destruct (loose file) eqn:E; [|reflexivity].
    apply Hsub in E. congruence.
Qed.

Lemma Stopped_down skipped path files file child :
  In (file, child) files -> skipped file = false ->
  Stopped skipped (join path file) child ->
  Stopped skipped path (Directory files).
Proof.
  intros Hin Hskip [(q & found & bad & Hr & Hbad)|(q & Hr)].
  - left. exists q, found, bad. split; [|exact Hbad].
    now apply Reaches_down with file child.
  - right. exists q. now apply Refuses_down with file child.
Qed.

(** What a walk returns and when it throws. *)
Lemma walk_spec (skipped : string -> bool) :
  skipped "package.json" = false ->
  forall node path,
    (forall out, walk skipped path node = Normal out ->
       forall q, In q out <->
                 exists found, Reaches skipped path node q found /\
                               In ("package.json", File) found) /\
    (throws (walk skipped path node) <-> Stopped skipped path node).
Proof.
  intros Hmanifest.
  induction node as [| | |files IH] using Node_nested_ind; intros path.
  - split.
    + simpl. intros out [= <-] q. split; [contradiction|].
      intros (found & Hr & _). inversion Hr.
    + split; [intros [m Hm]; discriminate|].
      intros [(q & found & file & Hr & _)|(q & Hr)]; inversion Hr.
  - split.
    + simpl. intros out [= <-] q. split; [contradiction|].
      intros (found & Hr & _). inversion Hr.
    + split; [intros [m Hm]; discriminate|].
      intros [(q & found & file & Hr & _)|(q & Hr)]; inversion Hr.
  - split.
    + simpl. discriminate.
    + split; [|intros _; now exists "EACCES"].
      intros _. right. exists path. constructor.
  - rewrite Forall_forall in IH. cbn [walk].
    set (visit := fun entry : string * Node =>
           let (file, fileStats) := entry in
           match fileStats with
           | Unreadable => Throw "ENOENT"
           | _ =>
               if isDirectory fileStats && negb (skipped file)
               then walk skipped (join path file) fileStats
               else if (file =? "package.json")%string
                    then Normal [path]
                    else Normal []
           end).
    split.
    + intros out Hout.
      destruct (gather_Normal visit files out Hout) as [Heach Hin].
      intros q. rewrite Hin. split.
      * intros ([file child] & o & Hentry & Hvisit & Hq).
        unfold visit in Hvisit.
        destruct child as [| | |children]; simpl in Hvisit; try discriminate.
        -- destruct (String.eqb_spec file "package.json") as [->|_];
             injection Hvisit as <-; [|contradiction].
           destruct Hq as [<-|[]]. exists files. split; [constructor | exact Hentry].
        -- destruct (skipped file) eqn:Eskip; simpl in Hvisit; [|discriminate].
           destruct (String.eqb_spec file "package.json") as [->|_];
             [congruence|]. injection Hvisit as <-. contradiction.
        -- destruct (skipped file) eqn:Eskip; simpl in Hvisit.
           ++ destruct (String.eqb_spec file "package.json") as [->|_];
                [congruence|]. injection Hvisit as <-. contradiction.
           ++ destruct (proj1 (IH _ Hentry (join path file)) o Hvisit q)
                as [Hfound _].
              destruct (Hfound Hq) as (found & Hr & Hm).
              exists found. split; [|exact Hm].
              now apply Reaches_down with file (Directory children).
      * intros (found & Hr & Hm).
        inversion Hr as [|? ? file child ? ? Hentry Hskip Hdown]; subst.
        -- exists ("package.json", File), [q].
           split; [exact Hm|]. split; [|now left].
           unfold visit. simpl. reflexivity.
        -- destruct (Heach _ Hentry) as [o Ho].
           exists (file, child), o. split; [exact Hentry|]. split; [exact Ho|].
           destruct child as [| | |children]; try (now inversion Hdown).
           unfold visit in Ho. simpl in Ho. rewrite Hskip in Ho. simpl in Ho.
           apply (proj1 (IH _ Hentry (join path file)) o Ho q).
           exists found. auto.
    + rewrite gather_throws. split.
      * intros ([file child] & Hentry & Hthrow).
        unfold visit in Hthrow.
        destruct child as [| | |children]; simpl in Hthrow.
        -- destruct (file =? "package.json")%string;
             destruct Hthrow as [m Hthrow]; discriminate.
        -- left. exists path, files, file. split; [constructor | exact Hentry].
        -- destruct (skipped file) eqn:Eskip; simpl in Hthrow.
           ++ destruct (file =? "package.json")%string;
                destruct Hthrow as [m Hthrow]; discriminate.
           ++ apply Stopped_down with file Unlistable; auto.
              right. exists (join path file). constructor.
        -- destruct (skipped file) eqn:Eskip; simpl in Hthrow.
           ++ destruct (file =? "package.json")%string;
                destruct Hthrow as [m Hthrow]; discriminate.
           ++ apply (IH _ Hentry (join path file)) in Hthrow.
              now apply Stopped_down with file (Directory children).
      * intros [(q & found & bad & Hr & Hbad)|(q & Hr)].
        -- inversion Hr as [|? ? file child ? ? Hentry Hskip Hdown]; subst.
           ++ exists (bad, Unreadable). split; [exact Hbad|].
              unfold visit. now exists "ENOENT".
           ++ exists (file, child). split; [exact Hentry|].
              destruct child as [| | |children]; try (now inversion Hdown).
              unfold visit. simpl. rewrite Hskip. simpl.
              apply (IH _ Hentry (join path file)). left. eauto.
        -- inversion Hr as [|? ? file child ? Hentry Hskip Hdown]; subst.
           exists (file, child). split; [exact Hentry|].
           destruct child as [| | |children]; try (now inversion Hdown).
           ++ unfold visit. simpl. rewrite Hskip. simpl. now exists "EACCES".
           ++ unfold visit. simpl. rewrite Hskip. simpl.
              apply (IH _ Hentry (join path file)). right. eauto.
Qed.

Lemma skippedByTraverse_negb file :
  negb (file =? "node_modules")%string && negb (file =? "dist")%string
  = negb (skippedByTraverse file).
Proof.
  unfold skippedByTraverse.
  now destruct (file =? "node_modules")%string, (file =? "dist")%string.
Qed.

Lemma skippedByFind_negb file :
  negb (file =? "node_modules")%string && negb (file =? "dist")%string
  && negb (file =? "framework")%string && negb (file =? "common")%string
  = negb (skippedByFind file).
Proof.
  unfold skippedByFind.
  now destruct (file =? "node_modules")%string, (file =? "dist")%string,
    (file =? "framework")%string, (file =? "common")%string.
Qed.

Lemma traverseFolder_walk node path :
  traverseFolder path node = walk skippedByTraverse path node.
Proof.
  revert path.
  induction node as [| | |files IH] using Node_nested_ind; intros path;
    try reflexivity.
  rewrite Forall_forall in IH. cbn [traverseFolder walk].
  apply gather_ext. intros [file child] Hentry.
  pose proof (IH _ Hentry (join path file)) as Hchild. cbn [snd] in Hchild.
  destruct child as [| | |children]; try reflexivity;
    cbn [isDirectory andb]; rewrite skippedByTraverse_negb;
    rewrite Hchild; reflexivity.
Qed.

Lemma findAllPiecesFolder_walk node path :
  isDirectory node = true ->
  findAllPiecesFolder path node = walk skippedByFind path node.
Proof.
  revert path.
  induction node as [| | |files IH] using Node_nested_ind; intros path;
    try discriminate; try reflexivity.
  intros _. rewrite Forall_forall in IH. cbn [findAllPiecesFolder walk].
  apply gather_ext. intros [file child] Hentry.
  pose proof (IH _ Hentry (join path file)) as Hchild. cbn [snd] in Hchild.
  destruct child as [| | |children]; try reflexivity;
    cbn [isDirectory andb]; rewrite skippedByFind_negb;
    rewrite Hchild by reflexivity; reflexivity.
Qed.

End FolderFacts.

Section FolderTheorems.

Import PieceLoader PieceFolders.

Context `{FileSystem}.

(** X1: the folders [traverseFolder] returns are exactly the directories
    that hold a file named [package.json] and are reached from the start
    through directories none of which is named [node_modules] or [dist]. *)
Theorem traverseFolder_finds (path : string) (node : Node) (paths : list string)
    (returned : traverseFolder path node = Normal paths) :
  forall folder,
    In folder paths <->
    exists files,
      Reaches skippedByTraverse path node folder files /\
      In ("package.json", File) files.
Proof.
  rewrite traverseFolder_walk in returned.
  exact (proj1 (walk_spec skippedByTraverse eq_refl node path) paths returned).
Qed.

(** X2: [traverseFolder] returns the empty list when [stat] rejects at the
    start or finds something that is not a directory.  It throws exactly
    when it reaches a directory that lists an entry [stat] cannot read, or
    a directory, the start included, that [readdir] refuses to list. *)
Theorem traverseFolder_throws (path : string) (node : Node) :
  (isDirectory node = false -> traverseFolder path node = Normal []) /\
  (throws (traverseFolder path node) <->
   (exists folder files file,
       Reaches skippedByTraverse path node folder files /\
       In (file, Unreadable) files) \/
   (exists folder, Refuses skippedByTraverse path node folder)).
Proof.
  split.
  - now destruct node.
  - rewrite traverseFolder_walk.
    exact (proj2 (walk_spec skippedByTraverse eq_refl node path)).
Qed.

(** X3: [findAllPiecesFolder] throws when there is no directory at the
    start; otherwise it returns the directories that hold a file named
    [package.json] and are reached through directories none of which is
    named [node_modules], [dist], [framework] or [common]; whenever
    [traverseFolder] returns from a directory, so does
    [findAllPiecesFolder], with folders that [traverseFolder] returns too. *)
Theorem findAllPiecesFolder_finds (path : string) (node : Node) :
  (isDirectory node = false -> throws (findAllPiecesFolder path node)) /\
  (forall paths,
      findAllPiecesFolder path node = Normal paths ->
      forall folder,
        In folder paths <->
        exists files,
          Reaches skippedByFind path node folder files /\
          In ("package.json", File) files) /\
  (forall every,
      isDirectory node = true ->
      traverseFolder path node = Normal every ->
      exists paths,
        findAllPiecesFolder path node = Normal paths /\ incl paths every).
Proof.
  assert (Hloose : forall file,
             skippedByTraverse file = true -> skippedByFind file = true).
  { intros file. unfold skippedByTraverse, skippedByFind.
    intros ->. reflexivity. }
  split; [|split].
  - destruct node; try discriminate; intros _; eexists; reflexivity.
  - intros paths Hpaths.
    destruct (isDirectory node) eqn:Hdir;
      [|destruct node; discriminate].
    rewrite (findAllPiecesFolder_walk node path Hdir) in Hpaths.
    exact (proj1 (walk_spec skippedByFind eq_refl node path) paths Hpaths).
  - intros every Hdir Hevery.
    rewrite traverseFolder_walk in Hevery.
    rewrite (findAllPiecesFolder_walk node path Hdir).
    destruct (walk skippedByFind path node) as [paths|m] eqn:Hfind.
    + exists paths. split; [reflexivity|]. intros q Hq.
      apply (proj1 (walk_spec skippedByFind eq_refl node path) paths Hfind q) in Hq.
      destruct Hq as (files & Hr & Hm).
      apply (proj1 (walk_spec skippedByTraverse eq_refl node path) every Hevery q).
      exists files. split; [|exact Hm].
      now apply Reaches_weaken with skippedByFind.
    + assert (Hthrow : throws (walk skippedByTraverse path node)).
      { apply (proj2 (walk_spec skippedByTraverse eq_refl node path)).
        destruct (proj1 (proj2 (walk_spec skippedByFind eq_refl node path)))
          as [(q & files & file & Hr & Hbad)|(q & Hr)];
          [rewrite Hfind; now exists m| |].
        - left. exists q, files, file. split; [|exact Hbad].
          now apply Reaches_weaken with skippedByFind.
        - right. exists q. now apply Refuses_weaken with skippedByFind. }
      destruct Hthrow as [m' Hm']. congruence.
Qed.

Lemma firstWithName_spec (packageName : string) (paths : list string) :
  match firstWithName packageName paths with
  | Some path =>
      exists before after packageJson,
        paths = (before ++ path :: after)%list /\
        readJsonFile (join path "package.json") = Normal packageJson /\
        pkg_name packageJson = packageName /\
        forall earlier other,
          In earlier before ->
          readJsonFile (join earlier "package.json") = Normal other ->
          pkg_name other <> packageName
  | None =>
      forall path other,
        In path paths ->
        readJsonFile (join path "package.json") = Normal other ->
        pkg_name other <> packageName
  end.
Proof.
  induction paths as [|path paths IH]; simpl; [contradiction|].
  destruct (readJsonFile (join path "package.json")) as [packageJson|m] eqn:Eread.
  - destruct (String.eqb_spec (pkg_name packageJson) packageName) as [Hname|Hname].
    + exists [], paths, packageJson. repeat split; auto; contradiction.
    + destruct (firstWithName packageName paths) as [found|].
      * destruct IH as (before & after & pj & -> & Hread & Hpj & Hearlier).
        exists (path :: before), after, pj. repeat split; auto.
        intros earlier other [<-|Hin] Hother; [congruence | eauto].
      * intros q other [<-|Hin] Hother; [congruence | eauto].
  - destruct (firstWithName packageName paths) as [found|].
    + destruct IH as (before & after & pj & -> & Hread & Hpj & Hearlier).
      exists (path :: before), after, pj. repeat split; auto.
      intros earlier other [<-|Hin] Hother; [congruence | eauto].
    + intros q other [<-|Hin] Hother; [congruence | eauto].
Qed.

(** X4: when the walk of [dist/packages/pieces] returns,
    [findDirectoryByPackageName] returns the first folder of the walk whose
    [package.json] reads and carries the given name, passing over the
    manifests that do not read, and null exactly when no folder of the walk
    has such a manifest; when the walk throws, so does it. *)
Theorem findDirectoryByPackageName_first (packageName : string) :
  let root := resolve [cwd; "dist"; "packages"; "pieces"] in
  (forall paths,
      findAllPiecesFolder root (stat root) = Normal paths ->
      exists result,
        findDirectoryByPackageName packageName = Normal result /\
        (forall path,
            result = Some path ->
            exists before after packageJson,
              paths = (before ++ path :: after)%list /\
              readJsonFile (join path "package.json") = Normal packageJson /\
              pkg_name packageJson = packageName /\
              forall earlier other,
                In earlier before ->
                readJsonFile (join earlier "package.json") = Normal other ->
                pkg_name other <> packageName) /\
        (result = None <->
         forall path other,
           In path paths ->
           readJsonFile (join path "package.json") = Normal other ->
           pkg_name other <> packageName)) /\
  (throws (findAllPiecesFolder root (stat root)) ->
   throws (findDirectoryByPackageName packageName)).
Proof.
  intros root. split.
  - intros paths Hpaths. exists (firstWithName packageName paths).
    split; [unfold findDirectoryByPackageName; fold root; now rewrite Hpaths|].
    pose proof (firstWithName_spec packageName paths) as Hspec.
    destruct (firstWithName packageName paths) as [found|].
    + split; [intros path [= <-]; exact Hspec|].
      split; [discriminate|]. intros Hnone.
      destruct Hspec as (before & after & pj & -> & Hread & Hpj & _).
      elim (Hnone found pj); auto. apply in_elt.
    + split; [discriminate|]. split; auto.
  - intros [m Hm]. exists m.
    unfold findDirectoryByPackageName. fold root. now rewrite Hm.
Qed.

End FolderTheorems.

(** ** The piece loader, continued *)

Section LoaderMore.

Import PieceLoader.

Context {Rest : Type}.
Context `{SharedEnums} `{SemverPackage} `{StringLocale} `{PieceHost Rest}.

Lemma validateSupportedRelease_Normal (minRelease maxRelease : option string) :
  validateSupportedRelease minRelease maxRelease = Normal tt <->
  (forall m, minRelease = Some m -> truthy (semver_valid m) = true) /\
  (forall m, maxRelease = Some m -> truthy (semver_valid m) = true) /\
  (forall a b, minRelease = Some a -> maxRelease = Some b ->
               semver_gt a b = Normal false).
Proof.
  unfold validateSupportedRelease.
  destruct minRelease as [a|], maxRelease as [b|]; simpl.
  - destruct (truthy (semver_valid a)) eqn:Ea; simpl.
    + destruct (truthy (semver_valid b)) eqn:Eb; simpl.
      * destruct (semver_gt a b) as [[|]|m] eqn:Egt; simpl.
        -- split; [discriminate|]. intros (_ & _ & Hgt).
           specialize (Hgt a b eq_refl eq_refl). congruence.
        -- split; [|reflexivity]. intros _.
           repeat split; intros; congruence.
        -- split; [discriminate|]. intros (_ & _ & Hgt).
           specialize (Hgt a b eq_refl eq_refl). congruence.
      * split; [discriminate|]. intros (_ & Hmax & _).
        specialize (Hmax b eq_refl). congruence.
    + split; [discriminate|]. intros (Hmin & _).
      specialize (Hmin a eq_refl). congruence.
  - destruct (truthy (semver_valid a)) eqn:Ea; simpl.
    + split; [|reflexivity]. intros _. repeat split; intros; congruence.
    + split; [discriminate|]. intros (Hmin & _).
      specialize (Hmin a eq_refl). congruence.
  - destruct (truthy (semver_valid b)) eqn:Eb; simpl.
    + split; [|reflexivity]. intros _. repeat split; intros; congruence.
    + split; [discriminate|]. intros (_ & Hmax & _).
      specialize (Hmax b eq_refl). congruence.
  - split; [|reflexivity]. intros _. repeat split; intros; congruence.
Qed.

Lemma validateMetadata_Normal (metadata : PieceMetadata Rest) :
  validateMetadata metadata = Normal tt <->
  validateSupportedRelease (minimumSupportedRelease metadata)
    (maximumSupportedRelease metadata) = Normal tt /\
  validatePremiumPiece metadata = Normal tt.
Proof.
  unfold validateMetadata.
  destruct (validateSupportedRelease (minimumSupportedRelease metadata)
              (maximumSupportedRelease metadata)) as [[]|m]; simpl.
  - tauto.
  - split; [discriminate | intros [? _]; discriminate].
Qed.

Lemma findAllPieces_In_paths (paths : list string)
    (pieces : list (PieceMetadata Rest)) (metadata : PieceMetadata Rest) :
  findAllDistPaths = Normal paths ->
  findAllPieces = Normal pieces ->
  In metadata pieces ->
  exists folderPath,
    In folderPath paths /\ loadPieceFromFolder folderPath = Some metadata.
Proof.
  unfold findAllPieces. intros ->. simpl. intros [= <-].
  rewrite sort_In, filterNotNull_In. auto.
Qed.

(** X5: [validateSupportedRelease] returns exactly when every bound that
    is given is a valid version and, when both are given, [semver.gt] says
    the minimum is not greater than the maximum; in every other case it
    throws.  Bounds that are both missing always pass. *)
Theorem validateSupportedRelease_passes (minRelease maxRelease : option string) :
  (validateSupportedRelease minRelease maxRelease = Normal tt <->
   (forall m, minRelease = Some m -> truthy (semver_valid m) = true) /\
   (forall m, maxRelease = Some m -> truthy (semver_valid m) = true) /\
   (forall a b, minRelease = Some a -> maxRelease = Some b ->
                semver_gt a b = Normal false)) /\
  (validateSupportedRelease minRelease maxRelease <> Normal tt ->
   throws (validateSupportedRelease minRelease maxRelease)) /\
  validateSupportedRelease None None = Normal tt.
Proof.
  split; [apply validateSupportedRelease_Normal|]. split; [|reflexivity].
  intros Hno.
  destruct (completion_unit_cases
              (validateSupportedRelease minRelease maxRelease)); tauto.
Qed.

(** X6: every piece [findAllPieces] returns carries the name and version of
    its folder's [package.json] and the folder as its directory path, has
    both release bounds set to valid versions with the minimum not greater
    than the maximum, and obeys the premium rules. *)
Theorem findAllPieces_validated (pieces : list (PieceMetadata Rest))
    (metadata : PieceMetadata Rest)
    (returned : findAllPieces = Normal pieces)
    (listed : In metadata pieces) :
  exists folderPath packageJson minRelease maxRelease,
    readPackageJson folderPath = Normal packageJson /\
    directoryPath metadata = Some folderPath /\
    name metadata = pkg_name packageJson /\
    version metadata = pkg_version packageJson /\
    minimumSupportedRelease metadata = Some minRelease /\
    maximumSupportedRelease metadata = Some maxRelease /\
    truthy (semver_valid minRelease) = true /\
    truthy (semver_valid maxRelease) = true /\
    semver_gt minRelease maxRelease = Normal false /\
    premiumRules metadata.
Proof.
  destruct (findAllPieces_In _ _ returned listed) as (folderPath & Hload).
  apply loadPieceFromFolder_Some in Hload.
  destruct Hload as (packageJson & piece & Hread & _ & Hmeta & Hvalid).
  apply validateMetadata_Normal in Hvalid. destruct Hvalid as [Hrelease Hpremium].
  apply validateSupportedRelease_Normal in Hrelease.
  destruct Hrelease as (Hmin & Hmax & Hgt).
  apply validatePremiumPiece_Normal in Hpremium.
  subst metadata. cbn [assembleMetadata minimumSupportedRelease
                         maximumSupportedRelease] in Hmin, Hmax, Hgt.
  exists folderPath, packageJson,
    (coalesce (piece_minimumSupportedRelease piece) "0.0.0"),
    (coalesce (piece_maximumSupportedRelease piece) "99999.99999.9999").
  repeat split; auto; apply Hpremium.
Qed.

(** X7: [findPiece] looks a piece up by the name of its [package.json]:
    it returns a listed piece of that name, the first in the order of the
    listing, and null exactly when no listed piece has the name. *)
Theorem findPiece_by_package_name (pieceName : string)
    (pieces : list (PieceMetadata Rest))
    (returned : findAllPieces = Normal pieces) :
  exists result,
    findPiece pieceName = Normal result /\
    (forall metadata,
        result = Some metadata ->
        name metadata = pieceName /\
        (exists before after,
            pieces = (before ++ metadata :: after)%list /\
            forall earlier, In earlier before -> name earlier <> pieceName) /\
        exists folderPath packageJson,
          directoryPath metadata = Some folderPath /\
          readPackageJson folderPath = Normal packageJson /\
          pkg_name packageJson = pieceName) /\
    (result = None <->
     forall metadata, In metadata pieces -> name metadata <> pieceName).
Proof.
  exists (find (fun p => (name p =? pieceName)%string) pieces).
  split; [unfold findPiece; now rewrite returned|].
  split.
  - intros metadata Hfind.
    assert (Hfirst : exists before after,
               pieces = (before ++ metadata :: after)%list /\
               forall earlier, In earlier before -> name earlier <> pieceName).
    { clear returned. induction pieces as [|p l IH]; simpl in Hfind;
        [discriminate|].
      destruct (String.eqb_spec (name p) pieceName) as [Hp|Hp].
      - injection Hfind as <-. exists [], l. split; [reflexivity | contradiction].
      - destruct (IH Hfind) as (before & after & -> & Hearlier).
        exists (p :: before), after. split; [reflexivity|].
        intros earlier [<-|Hin]; auto. }
    apply find_some in Hfind. destruct Hfind as [Hin Hname].
    apply String.eqb_eq in Hname.
    split; [exact Hname|]. split; [exact Hfirst|].
    destruct (findAllPieces_In _ _ returned Hin) as (folderPath & Hload).
    apply loadPieceFromFolder_Some in Hload.
    destruct Hload as (packageJson & piece & Hread & _ & Hmeta & _).
    exists folderPath, packageJson. subst metadata. auto.
  - split.
    + intros Hnone metadata Hin Hname.
      apply (find_none _ _ Hnone) in Hin. apply String.eqb_neq in Hin. auto.
    + intros Hnone.
      destruct (find (fun p => (name p =? pieceName)%string) pieces)
        as [metadata|] eqn:Hfind; [|reflexivity].
      apply find_some in Hfind. destruct Hfind as [Hin Hname].
      apply String.eqb_eq in Hname. now elim (Hnone metadata Hin).
Qed.

End LoaderMore.

(** ** The loader over the disk *)

Section DiskFacts.

Import PieceLoader PieceFolders.

Context {Rest : Type}.
Context `{SharedEnums} `{SemverPackage} `{StringLocale} `{FileSystem}.

Lemma prefix_spec (a s : string) :
  String.prefix a s = true <-> exists post, s = a ++ post.
Proof.
  revert s. induction a as [|c a IH]; intros s; simpl.
  - split; [intros _; now exists s | now destruct s].
  - destruct s as [|d s]; simpl.
    + split; [discriminate | intros [post Hpost]; discriminate].
    + destruct (ascii_dec c d) as [<-|Hne].
      * rewrite IH. split; intros [post Hpost]; exists post; congruence.
      * split; [discriminate | intros [post Hpost]; congruence].
Qed.

Lemma includes_step (s search : string) :
  includes s search
  = if String.prefix search s then true
    else match s with
         | EmptyString => false
         | String _ rest => includes rest search
         end.
Proof. now destruct s. Qed.

Lemma includes_spec (s search : string) :
  includes s search = true <-> exists pre post, s = pre ++ search ++ post.
Proof.
  split.
  - induction s as [|c s IH]; rewrite includes_step;
      destruct (String.prefix search _) eqn:Ep;
      try (apply prefix_spec in Ep; destruct Ep as [post ->];
           intros _; now exists EmptyString, post);
      [discriminate|].
    intros Hs. destruct (IH Hs) as (pre & post & ->).
    now exists (String c pre), post.
  - intros (pre & post & ->).
    induction pre as [|c pre IH]; rewrite includes_step.
    + replace (String.prefix search (EmptyString ++ search ++ post)) with true;
        [reflexivity|].
      symmetry. apply prefix_spec. now exists post.
    + destruct (String.prefix search _); [reflexivity | exact IH].
Qed.

Lemma throws_bind_both {A B C} (a : Completion A) (b : Completion B)
    (k : A -> B -> C) :
  throws (x <- a ;; y <- b ;; Normal (k x y)) <-> throws a \/ throws b.
Proof.
  destruct a as [x|m]; simpl.
  - destruct b as [y|m]; simpl.
    + split; [intros [m Hm]; discriminate|].
      intros [[m Hm]|[m Hm]]; discriminate.
    + split; [intros _; right; now exists m | intros _; now exists m].
  - split; [intros _; left; now exists m | intros _; now exists m].
Qed.

(** X8: [findAllDistPaths] throws exactly when one of its two walks does.
    When the loader takes its folders from the disk, every piece
    [findAllPieces] returns comes from a folder under
    [dist/packages/pieces] or [dist/packages/ee/pieces] that holds a file
    named [package.json] and is not inside a [node_modules] or [dist]
    directory; its name is the one that manifest gives. *)
Theorem findAllPieces_from_disk
    (load : string -> string -> string -> Completion (Piece Rest)) :
  let baseDir := resolve [cwd; "dist"; "packages"] in
  let standard := resolve [baseDir; "pieces"] in
  let enterprise := resolve [baseDir; "ee"; "pieces"] in
  (throws PieceFolders.findAllDistPaths <->
   throws (traverseFolder standard (stat standard)) \/
   throws (traverseFolder enterprise (stat enterprise))) /\
  forall pieces metadata,
    @findAllPieces Rest _ _ _ (diskHost load) = Normal pieces ->
    In metadata pieces ->
    exists folderPath root files packageJson,
      directoryPath metadata = Some folderPath /\
      (root = standard \/ root = enterprise) /\
      Reaches skippedByTraverse root (stat root) folderPath files /\
      In ("package.json", File) files /\
      readJsonFile (folderPath ++ "/package.json") = Normal packageJson /\
      name metadata = pkg_name packageJson.
Proof.
  intros baseDir standard enterprise. split.
  - unfold PieceFolders.findAllDistPaths. fold baseDir standard enterprise.
    apply throws_bind_both.
  - intros pieces metadata Hall Hin.
    destruct (PieceFolders.findAllDistPaths) as [paths|m] eqn:Hpaths;
      [|unfold findAllPieces in Hall; cbn [PieceLoader.findAllDistPaths diskHost] in Hall;
        rewrite Hpaths in Hall; discriminate].
    destruct (findAllPieces_In_paths (H2 := diskHost load) paths pieces metadata
                Hpaths Hall Hin) as (folderPath & Hfolder & Hload).
    apply loadPieceFromFolder_Some in Hload.
    destruct Hload as (packageJson & piece & Hread & _ & Hmeta & _).
    unfold PieceFolders.findAllDistPaths in Hpaths.
    fold baseDir standard enterprise in Hpaths.
    destruct (traverseFolder standard (stat standard)) as [first|] eqn:Hfirst;
      simpl in Hpaths; [|discriminate].
    destruct (traverseFolder enterprise (stat enterprise)) as [second|] eqn:Hsecond;
      simpl in Hpaths; [|discriminate].
    injection Hpaths as <-. apply in_app_iff in Hfolder.
    assert (Hfound : exists root files,
               (root = standard \/ root = enterprise) /\
               Reaches skippedByTraverse root (stat root) folderPath files /\
               In ("package.json", File) files).
    { destruct Hfolder as [Hfolder|Hfolder].
      - rewrite traverseFolder_walk in Hfirst.
        apply (proj1 (walk_spec skippedByTraverse eq_refl _ _) _ Hfirst) in Hfolder.
        destruct Hfolder as (files & Hr & Hm). exists standard, files. auto.
      - rewrite traverseFolder_walk in Hsecond.
        apply (proj1 (walk_spec skippedByTraverse eq_refl _ _) _ Hsecond) in Hfolder.
        destruct Hfolder as (files & Hr & Hm). exists enterprise, files. auto. }
    destruct Hfound as (root & files & Hroot & Hr & Hm).
    exists folderPath, root, files, packageJson. subst metadata.
    repeat split; auto.
Qed.

(** X9: [findPieceDirectoryInSource] matches by substring: when the two
    walks of the sources return, it returns the first folder whose path
    contains the piece name somewhere, and null exactly when no path does;
    for the empty name it returns the first folder found. *)
Theorem findPieceDirectoryInSource_substring (pieceName : string)
    (every : list string)
    (walked : findAllPiecesDirectoryInSource = Normal every) :
  exists result,
    findPieceDirectoryInSource pieceName = Normal result /\
    (forall path,
        result = Some path ->
        (exists pre post, path = pre ++ pieceName ++ post) /\
        exists before after,
          every = (before ++ path :: after)%list /\
          forall earlier pre post,
            In earlier before -> earlier <> pre ++ pieceName ++ post) /\
    (result = None <->
     forall path pre post, In path every -> path <> pre ++ pieceName ++ post) /\
    (pieceName = EmptyString -> result = hd_error every).
Proof.
  exists (find (fun p => includes p pieceName) every).
  split; [unfold findPieceDirectoryInSource; now rewrite walked|].
  clear walked. split; [|split].
  - intros path Hfind.
    assert (Hfirst : exists before after,
               every = (before ++ path :: after)%list /\
               forall earlier pre post,
                 In earlier before -> earlier <> pre ++ pieceName ++ post).
    { induction every as [|p l IH]; simpl in Hfind; [discriminate|].
      destruct (includes p pieceName) eqn:Hp.
      - injection Hfind as <-. exists [], l. split; [reflexivity | contradiction].
      - destruct (IH Hfind) as (before & after & -> & Hearlier).
        exists (p :: before), after. split; [reflexivity|].
        intros earlier pre post [<-|Hin]; [|now apply Hearlier].
        intros ->. rewrite (proj2 (includes_spec _ _)) in Hp; [discriminate|].
        now exists pre, post. }
    apply find_some in Hfind. destruct Hfind as [_ Hinc].
    apply includes_spec in Hinc. auto.
  - split.
    + intros Hnone path pre post Hin ->.
      apply (find_none _ _ Hnone) in Hin.
      rewrite (proj2 (includes_spec _ _)) in Hin; [discriminate|].
      now exists pre, post.
    + intros Hnone.
      destruct (find (fun p => includes p pieceName) every) as [path|] eqn:Hfind;
        [|reflexivity].
      apply find_some in Hfind. destruct Hfind as [Hin Hinc].
      apply includes_spec in Hinc. destruct Hinc as (pre & post & Hpath).
      now elim (Hnone path pre post Hin).
  - intros ->. destruct every as [|p l]; [reflexivity|]. simpl.
    rewrite (proj2 (includes_spec p EmptyString)); [reflexivity|].
    now exists EmptyString, p.
Qed.

End DiskFacts.

(** ** The platform domain helper *)

Section PlatformFacts.

Import PlatformDomain.

Context `{PlatformHost}.

Lemma append_empty_r (s : string) : s ++ EmptyString = s.
Proof. induction s as [|c s IH]; simpl; [reflexivity | now rewrite IH]. Qed.

Lemma append_assoc (a b c : string) : (a ++ b) ++ c = a ++ b ++ c.
Proof. induction a as [|x a IH]; simpl; [reflexivity | now rewrite IH]. Qed.

Lemma endsWith_step (s suffix : string) :
  endsWith s suffix
  = if (s =? suffix)%string then true
    else match s with
         | EmptyString => false
         | String _ rest => endsWith rest suffix
         end.
Proof. now destruct s. Qed.

Lemma endsWith_spec (s suffix : string) :
  endsWith s suffix = true <-> exists pre, s = pre ++ suffix.
Proof.
  split.
  - induction s as [|c s IH]; rewrite endsWith_step.
    + destruct (String.eqb_spec EmptyString suffix) as [<-|Hne];
        [intros _; now exists EmptyString | discriminate].
    + destruct (String.eqb_spec (String c s) suffix) as [<-|Hne];
        [intros _; now exists EmptyString|].
      intros Hs. destruct (IH Hs) as (pre & ->). now exists (String c pre).
  - intros (pre & ->). induction pre as [|c pre IH]; rewrite endsWith_step.
    + simpl. now rewrite String.eqb_refl.
    + destruct (String.eqb (String c pre ++ suffix) suffix);
        [reflexivity | exact IH].
Qed.

Lemma closeWithSlash_closed (d : option string) :
  endsWith (closeWithSlash d) "/" = true.
Proof.
  unfold closeWithSlash. destruct d as [u|]; simpl.
  - destruct (endsWith u "/") eqn:Eu.
    + now rewrite append_empty_r.
    + apply endsWith_spec. now exists u.
  - reflexivity.
Qed.

Lemma closeWithSlash_kept (u : string) :
  endsWith u "/" = true -> closeWithSlash (Some u) = u.
Proof. unfold closeWithSlash. simpl. intros ->. apply append_empty_r. Qed.

(** X10: every URL [constructUrlFrom] or [constructUrlFromRequest]
    returns is the frontend domain, which ends in a slash, followed by the
    path as given; they throw exactly when the domain lookup does. *)
Theorem constructUrl_shape (path : string) :
  (forall platformId url,
      constructUrlFrom platformId path = Normal url ->
      exists base,
        getFrontendDomain platformId = Normal base /\
        endsWith base "/" = true /\
        url = base ++ path) /\
  (forall hostname url,
      constructUrlFromRequest hostname path = Normal url ->
      exists base,
        getFrontendDomainFromHostname hostname = Normal base /\
        endsWith base "/" = true /\
        url = base ++ path) /\
  (forall platformId,
      throws (constructUrlFrom platformId path) <->
      truthy platformId = true /\
      throws (getOneByPlatform (coalesce platformId EmptyString))) /\
  (forall hostname,
      throws (constructUrlFromRequest hostname path) <->
      throws (getOneByDomain hostname)).
Proof.
  split; [|split; [|split]].
  - intros platformId url. unfold constructUrlFrom, getFrontendDomain.
    destruct (truthy platformId); simpl.
    + destruct (getOneByPlatform _) as [c|]; simpl; [|discriminate].
      intros [= <-]. eexists. split; [reflexivity|].
      split; [apply closeWithSlash_closed | reflexivity].
    + intros [= <-]. eexists. split; [reflexivity|].
      split; [apply closeWithSlash_closed | reflexivity].
  - intros hostname url. unfold constructUrlFromRequest, getFrontendDomainFromHostname.
    destruct (getOneByDomain hostname) as [c|]; simpl; [|discriminate].
    intros [= <-]. eexists. split; [reflexivity|].
    split; [apply closeWithSlash_closed | reflexivity].
  - intros platformId. unfold constructUrlFrom, getFrontendDomain.
    destruct (truthy platformId); simpl.
    + destruct (getOneByPlatform _) as [c|m]; simpl.
      * split; [intros [m Hm]; discriminate | intros [_ [m Hm]]; discriminate].
      * split; [intros _; split; [reflexivity | now exists m]
               | intros _; now exists m].
    + split; [intros [m Hm]; discriminate | intros [Hf _]; discriminate].
  - intros hostname. unfold constructUrlFromRequest, getFrontendDomainFromHostname.
    destruct (getOneByDomain hostname) as [c|m]; simpl.
    + split; intros [m Hm]; discriminate.
    + split; intros _; now exists m.
Qed.

(** X11: [getFrontendDomain] does not consult the custom domains when the
    platform identifier is missing or empty; a custom domain, when the
    platform has one, replaces the frontend URL, as
    [https://<domain>/]; otherwise the frontend URL is returned, with a
    slash added only when it does not end in one, so that closing a closed
    URL changes nothing. *)
Theorem getFrontendDomain_value (platformId : option string) :
  (truthy platformId = false ->
   getFrontendDomain platformId = Normal (closeWithSlash frontendUrl)) /\
  (forall id custom,
      platformId = Some id -> id <> EmptyString ->
      getOneByPlatform id = Normal (Some custom) ->
      getFrontendDomain platformId
      = Normal ("https://" ++ domain custom ++ "/")) /\
  (forall id,
      platformId = Some id -> id <> EmptyString ->
      getOneByPlatform id = Normal None ->
      getFrontendDomain platformId = Normal (closeWithSlash frontendUrl)) /\
  (forall url,
      (endsWith url "/" = true -> closeWithSlash (Some url) = url) /\
      (endsWith url "/" = false -> closeWithSlash (Some url) = url ++ "/")) /\
  (forall d, closeWithSlash (Some (closeWithSlash d)) = closeWithSlash d).
Proof.
  split; [|split; [|split; [|split]]].
  - intros Hfalsy. unfold getFrontendDomain. now rewrite Hfalsy.
  - intros id custom -> Hid Hcustom. unfold getFrontendDomain. simpl.
    destruct (String.eqb_spec id EmptyString) as [|_]; [contradiction|].
    simpl. rewrite Hcustom. simpl. f_equal.
    apply closeWithSlash_kept. apply endsWith_spec.
    exists ("https://" ++ domain custom). now rewrite append_assoc.
  - intros id -> Hid Hnone. unfold getFrontendDomain. simpl.
    destruct (String.eqb_spec id EmptyString) as [|_]; [contradiction|].
    simpl. now rewrite Hnone.
  - intros url. split; [apply closeWithSlash_kept|].
    unfold closeWithSlash. simpl. now intros ->.
  - intros d. apply closeWithSlash_kept, closeWithSlash_closed.
Qed.

(** X12: [getFrontendDomainFromHostname] always consults the custom
    domains: it throws exactly when the lookup does, returns
    [https://<domain>/] for a host that has a custom domain and the closed
    frontend URL for any other host. *)
Theorem getFrontendDomainFromHostname_value (hostname : string) :
  (throws (getFrontendDomainFromHostname hostname) <->
   throws (getOneByDomain hostname)) /\
  (forall custom,
      getOneByDomain hostname = Normal (Some custom) ->
      getFrontendDomainFromHostname hostname
      = Normal ("https://" ++ domain custom ++ "/")) /\
  (getOneByDomain hostname = Normal None ->
   getFrontendDomainFromHostname hostname
   = Normal (closeWithSlash frontendUrl)).
Proof.
  unfold getFrontendDomainFromHostname. split; [|split].
  - destruct (getOneByDomain hostname) as [c|m]; simpl.
    + split; intros [m Hm]; discriminate.
    + split; intros _; now exists m.
  - intros custom ->. simpl. f_equal.
    apply closeWithSlash_kept. apply endsWith_spec.
    exists ("https://" ++ domain custom). now rewrite append_assoc.
  - now intros ->.
Qed.

End PlatformFacts.

(** *** The folders, the loader and the helper on the sample disk *)

Section DiskExamples.

Import PieceLoader PieceFolders PlatformDomain DiskFixtures.

Lemma traverseFolder_finds_witness :
  let paths := [nocodbDist; airtableDist; frameworkDist] in
  traverseFolder (H := sampleDisk) piecesRoot distPieces = Normal paths /\
  exists files,
    Reaches (H := sampleDisk) skippedByTraverse piecesRoot distPieces
      nocodbDist files /\
    In manifest files.
Proof.
  intros paths. split; [reflexivity|].
  apply (traverseFolder_finds (H := sampleDisk) piecesRoot distPieces paths
           eq_refl nocodbDist).
  now left.
Defined.

Lemma traverseFolder_throws_witness :
  traverseFolder (H := brokenDisk) "/nowhere" (stat (FileSystem := brokenDisk) "/nowhere")
  = Normal [] /\
  throws (traverseFolder (H := brokenDisk) piecesRoot
            (stat (FileSystem := brokenDisk) piecesRoot)) /\
  traverseFolder (H := sealedDisk) piecesRoot
    (stat (FileSystem := sealedDisk) piecesRoot) = Throw "EACCES" /\
  throws (traverseFolder (H := sealedDisk) piecesRoot
            (stat (FileSystem := sealedDisk) piecesRoot)) /\
  throws (traverseFolder (H := sealedDisk) enterpriseRoot
            (stat (FileSystem := sealedDisk) enterpriseRoot)).
Proof.
  split; [|split; [|split; [reflexivity|split]]].
  - exact (proj1 (traverseFolder_throws (H := brokenDisk) "/nowhere"
                    (stat (FileSystem := brokenDisk) "/nowhere")) eq_refl).
  - apply (proj2 (traverseFolder_throws (H := brokenDisk) piecesRoot
                    (stat (FileSystem := brokenDisk) piecesRoot))).
    left.
    exists (slashJoin piecesRoot "community"),
      [("airtable", Directory [manifest]); ("dangling", Unreadable)],
      "dangling".
    split; [|simpl; auto].
    eapply Reaches_down; [left; reflexivity | reflexivity | constructor].
  - apply (proj2 (traverseFolder_throws (H := sealedDisk) piecesRoot
                    (stat (FileSystem := sealedDisk) piecesRoot))).
    right. exists (slashJoin piecesRoot "community").
    eapply Refuses_down; [right; left; reflexivity | reflexivity | constructor].
  - apply (proj2 (traverseFolder_throws (H := sealedDisk) enterpriseRoot
                    (stat (FileSystem := sealedDisk) enterpriseRoot))).
    right. exists enterpriseRoot. constructor.
Defined.

Lemma findAllPiecesFolder_finds_witness :
  traverseFolder (H := sampleDisk) piecesRoot distPieces
  = Normal [nocodbDist; airtableDist; frameworkDist] /\
  exists paths,
    findAllPiecesFolder (H := sampleDisk) piecesRoot distPieces = Normal paths /\
    incl paths [nocodbDist; airtableDist; frameworkDist] /\
    ~ In frameworkDist paths.
Proof.
  split; [reflexivity|].
  destruct (findAllPiecesFolder_finds (H := sampleDisk) piecesRoot distPieces)
    as (_ & _ & Hincl).
  destruct (Hincl _ eq_refl eq_refl) as (paths & Hpaths & Hsub).
  exists paths. split; [exact Hpaths|]. split; [exact Hsub|].
  vm_compute in Hpaths. injection Hpaths as <-.
  intros [Hin|[Hin|[]]]; discriminate.
Defined.

Lemma findDirectoryByPackageName_first_witness :
  findAllPiecesFolder (H := sampleDisk) piecesRoot distPieces
  = Normal [nocodbDist; airtableDist] /\
  (exists result,
      findDirectoryByPackageName (H := sampleDisk) "@activepieces/piece-nocodb"
      = Normal result /\
      result <> None) /\
  findDirectoryByPackageName (H := sampleDisk) "@activepieces/pieces-framework"
  = Normal None.
Proof.
  split; [reflexivity|].
  destruct (findDirectoryByPackageName_first (H := sampleDisk)
              "@activepieces/piece-nocodb") as [Hfound _].
  destruct (Hfound [nocodbDist; airtableDist] eq_refl)
    as (result & Hresult & _ & Hnone).
  split; [|reflexivity].
  exists result. split; [exact Hresult|].
  intros Hr.
  exact (proj1 Hnone Hr nocodbDist (manifestNamed "@activepieces/piece-nocodb")
           (or_introl eq_refl) eq_refl eq_refl).
Defined.

Lemma validateSupportedRelease_passes_witness :
  validateSupportedRelease (H0 := Fixtures.plainSemver) (Some "0.20.0")
    (Some "99999.99999.9999") = Normal tt /\
  throws (validateSupportedRelease (H0 := Fixtures.plainSemver) (Some "1.x") None).
Proof.
  split.
  - apply (proj1 (validateSupportedRelease_passes (H0 := Fixtures.plainSemver)
                    (Some "0.20.0") (Some "99999.99999.9999"))).
    repeat split; intros; repeat match goal with
                                 | E : Some _ = Some _ |- _ => injection E as <-
                                 end; reflexivity.
  - apply (proj1 (proj2 (validateSupportedRelease_passes
                           (H0 := Fixtures.plainSemver) (Some "1.x") None))).
    discriminate.
Defined.

Lemma findAllPieces_validated_witness :
  exists pieces metadata,
    diskListing = Normal pieces /\
    In metadata pieces /\
    name metadata = "@activepieces/piece-nocodb" /\
    premiumRules (H := Fixtures.premiumEnum) (H0 := Fixtures.plainSemver)
      metadata /\
    exists minRelease maxRelease,
      minimumSupportedRelease metadata = Some minRelease /\
      maximumSupportedRelease metadata = Some maxRelease /\
      semver_gt (SemverPackage := Fixtures.plainSemver) minRelease maxRelease
      = Normal false.
Proof.
  destruct diskListing as [pieces|] eqn:Hall; [|discriminate].
  destruct pieces as [|metadata pieces]; [discriminate|].
  exists (metadata :: pieces), metadata.
  split; [reflexivity|]. split; [now left|].
  destruct (findAllPieces_validated (H2 := diskHost (H := sampleDisk) loadSample)
              (metadata :: pieces) metadata Hall (or_introl eq_refl))
    as (folderPath & packageJson & minRelease & maxRelease
        & _ & _ & _ & _ & Hmin & Hmax & _ & _ & Hgt & Hrules).
  split; [vm_compute in Hall; now injection Hall as <- _|].
  split; [exact Hrules|].
  exists minRelease, maxRelease. auto.
Defined.

Lemma findPiece_by_package_name_witness :
  exists pieces,
    diskListing = Normal pieces /\
    (exists metadata,
        findPiece (H2 := diskHost (H := sampleDisk) loadSample)
          (H := Fixtures.premiumEnum) (H0 := Fixtures.plainSemver)
          (H1 := Fixtures.asciiLocale) "@activepieces/piece-sso"
        = Normal (Some metadata) /\
        name metadata = "@activepieces/piece-sso") /\
    findPiece (H2 := diskHost (H := sampleDisk) loadSample)
      (H := Fixtures.premiumEnum) (H0 := Fixtures.plainSemver)
      (H1 := Fixtures.asciiLocale) "SSO"
    = Normal None.
Proof.
  destruct diskListing as [pieces|] eqn:Hall; [|discriminate].
  exists pieces. split; [reflexivity|].
  destruct (findPiece_by_package_name
              (H2 := diskHost (H := sampleDisk) loadSample)
              "@activepieces/piece-sso" pieces Hall)
    as (result & Hresult & Hsome & _).
  split; [|reflexivity].
  destruct result as [metadata|]; [|vm_compute in Hresult; discriminate].
  exists metadata. split; [exact Hresult|].
  exact (proj1 (Hsome metadata eq_refl)).
Defined.

Lemma findAllPieces_from_disk_witness :
  exists pieces metadata folderPath files,
    diskListing = Normal pieces /\
    In metadata pieces /\
    directoryPath metadata = Some folderPath /\
    In manifest files /\
    (Reaches (H := sampleDisk) skippedByTraverse piecesRoot distPieces
       folderPath files \/
     Reaches (H := sampleDisk) skippedByTraverse enterpriseRoot distEnterprise
       folderPath files).
Proof.
  destruct diskListing as [pieces|] eqn:Hall; [|discriminate].
  destruct pieces as [|metadata pieces]; [discriminate|].
  destruct (proj2 (findAllPieces_from_disk (H2 := sampleDisk)
                     (H := Fixtures.premiumEnum) (H0 := Fixtures.plainSemver)
                     (H1 := Fixtures.asciiLocale) loadSample)
              (metadata :: pieces) metadata Hall (or_introl eq_refl))
    as (folderPath & root & files & packageJson & Hdir & Hroot & Hr & Hm & _).
  exists (metadata :: pieces), metadata, folderPath, files.
  split; [reflexivity|]. split; [now left|]. split; [exact Hdir|].
  split; [exact Hm|].
  destruct Hroot as [->| ->]; [left | right]; exact Hr.
Defined.

Lemma findPieceDirectoryInSource_substring_witness :
  let every := ["/app/packages/pieces/community/slack-bot";
                "/app/packages/pieces/community/slack"] in
  findAllPiecesDirectoryInSource (H := sampleDisk) = Normal every /\
  exists path,
    findPieceDirectoryInSource (H := sampleDisk) "slack" = Normal (Some path) /\
    exists pre post, path = pre ++ "slack" ++ post.
Proof.
  intros every. split; [reflexivity|].
  destruct (findPieceDirectoryInSource_substring (H2 := sampleDisk)
              "slack" every eq_refl) as (result & Hresult & Hsome & _).
  destruct result as [path|]; [|vm_compute in Hresult; discriminate].
  exists path. split; [exact Hresult|].
  exact (proj1 (Hsome path eq_refl)).
Defined.

Lemma constructUrl_shape_witness :
  constructUrlFrom (H := cloudPlatform) (Some "acme") "flows/1"
  = Normal "https://flows.acme.com/flows/1" /\
  exists base,
    getFrontendDomain (H := cloudPlatform) (Some "acme") = Normal base /\
    endsWith base "/" = true /\
    "https://flows.acme.com/flows/1" = base ++ "flows/1".
Proof.
  split; [reflexivity|].
  exact (proj1 (constructUrl_shape (H := cloudPlatform) "flows/1")
           (Some "acme") "https://flows.acme.com/flows/1" eq_refl).
Defined.

Lemma getFrontendDomain_value_witness :
  truthy None = false /\
  getFrontendDomain (H := cloudPlatform) None
  = Normal "https://cloud.activepieces.com/" /\
  getOneByPlatform (PlatformHost := cloudPlatform) "acme"
  = Normal (Some {| domain := "flows.acme.com" |}) /\
  getFrontendDomain (H := cloudPlatform) (Some "acme")
  = Normal "https://flows.acme.com/".
Proof.
  destruct (getFrontendDomain_value (H := cloudPlatform) None) as [Hnone _].
  destruct (getFrontendDomain_value (H := cloudPlatform) (Some "acme"))
    as (_ & Hcustom & _).
  split; [reflexivity|]. split; [exact (Hnone eq_refl)|].
  split; [reflexivity|].
  apply (Hcustom "acme" {| domain := "flows.acme.com" |} eq_refl);
    [discriminate | reflexivity].
Defined.

Lemma getFrontendDomainFromHostname_value_witness :
  getOneByDomain (PlatformHost := cloudPlatform) "flows.acme.com"
  = Normal (Some {| domain := "flows.acme.com" |}) /\
  getFrontendDomainFromHostname (H := cloudPlatform) "flows.acme.com"
  = Normal "https://flows.acme.com/" /\
  getFrontendDomainFromHostname (H := cloudPlatform) "localhost"
  = Normal "https://cloud.activepieces.com/".
Proof.
  split; [reflexivity|]. split.
  - exact (proj1 (proj2 (getFrontendDomainFromHostname_value
                           (H := cloudPlatform) "flows.acme.com"))
             {| domain := "flows.acme.com" |} eq_refl).
  - exact (proj2 (proj2 (getFrontendDomainFromHostname_value
                           (H := cloudPlatform) "localhost")) eq_refl).
Defined.

End DiskExamples.
